(** * Audio-Player: ingestion, cover cache, smart playlists and playback

    A shallow embedding of the core of [src/App.tsx] (the component [App])
    and of [src/db.ts] (the Dexie table [songs]), with the properties of
    the specification stated over it.

    Conventions of the embedding:
    - a JS string is a [string]; the only characters the code inspects
      are ['.'] and ['\u0000'], both ASCII;
    - [undefined] / a missing property is [None];
    - [lastEditedUtc] (an integral epoch-millisecond number) is a [Z];
    - the Dexie table is a list of records, with the primary-key
      constraint of the schema ['&id, title, album'] checked by [add];
    - object URLs are natural numbers handed out by a counter, and every
      call of [URL.revokeObjectURL] is logged;
    - the answers of the outside world (downloads, the tag parser,
      [Math.random], the listing of a folder) and the lower-casing of
      titles and search queries are parameters. *)

From Stdlib Require Import ZArith List Ascii String Bool Lia QArith Qround.
From stdpp Require Import gmap strings list fin_maps.
Import ListNotations.

Local Open Scope string_scope.
Local Open Scope Z_scope.

(** ** JavaScript string primitives used by the component *)

Module JS.

(** The character ['\u0000']. *)
Definition NUL : ascii := Ascii.zero.

(** The character ['.']. *)
Definition DOT : ascii := "."%char.

(** [!s] for a string: only the empty string is falsy. *)
Definition falsy (s : string) : bool :=
  match s with
  | EmptyString => true
  | String _ _ => false
  end.

(** [!v] for a possibly undefined string. *)
Definition falsyOpt (v : option string) : bool :=
  match v with
  | None => true
  | Some s => falsy s
  end.

(** [s.split(sep)] for a one-character separator. The array it returns
    is never empty, so it is given as its element [0] and the elements
    after it. *)
Fixpoint split (sep : ascii) (s : string) : string * list string :=
  match s with
  | EmptyString => (EmptyString, [])
  | String c rest =>
      let (piece, pieces) := split sep rest in
      if Ascii.eqb c sep then (EmptyString, piece :: pieces)
      else (String c piece, pieces)
  end.

(** [s.replaceAll(c, '')] for a one-character pattern. *)
Fixpoint removeAll (c : ascii) (s : string) : string :=
  match s with
  | EmptyString => EmptyString
  | String d rest =>
      if Ascii.eqb d c then removeAll c rest
      else String d (removeAll c rest)
  end.

(** [s.startsWith(p)]. *)
Fixpoint startsWith (s p : string) : bool :=
  match p, s with
  | EmptyString, _ => true
  | String _ _, EmptyString => false
  | String a p', String b s' => Ascii.eqb a b && startsWith s' p'
  end.

(** [s.includes(sub)]: [sub] occurs in [s] as a contiguous substring. *)
Fixpoint includes (s sub : string) : bool :=
  startsWith s sub ||
  match s with
  | EmptyString => false
  | String _ rest => includes rest sub
  end.

(** [c.toLowerCase()] on one ASCII character. *)
Definition lowerChar (c : ascii) : ascii :=
  let n := nat_of_ascii c in
  if (Nat.leb 65 n && Nat.leb n 90)%bool then ascii_of_nat (n + 32) else c.

(** [s.toLowerCase()] on a string of ASCII characters. *)
Fixpoint toLowerCase (s : string) : string :=
  match s with
  | EmptyString => EmptyString
  | String c rest => String (lowerChar c) (toLowerCase rest)
  end.

(** [a === b] on strings. *)
Definition strictEq (a b : string) : bool := String.eqb a b.

End JS.

(** ** Data model ([src/db.ts] and the declarations of [src/App.tsx]) *)

(** A [Blob]: its bytes and its mime type. *)
Record Blob := mkBlob {
  blobBytes : list Byte.byte;
  blobType : string
}.

(** [interface Song] of [db.ts]. *)
Record Song := mkSong {
  id : string;
  blob : Blob;
  lastEditedUtc : Z;
  title : string;
  artist : option string;
  album : option string;
  genre : option string;
  year : option string;
  cover : option Blob
}.

(** [enum Comparison]. *)
Inductive Comparison :=
| Comparison_is
| Comparison_isNot
| Comparison_includes
| Comparison_doesNotInclude.

(** [enum Attribute]; [attributeValue] is the string each member denotes. *)
Inductive Attribute :=
| Attribute_Title
| Attribute_Artist
| Attribute_Album
| Attribute_Genre.

Definition attributeValue (a : Attribute) : string :=
  match a with
  | Attribute_Title => "Title"
  | Attribute_Artist => "Artist"
  | Attribute_Album => "Album"
  | Attribute_Genre => "Genre"
  end.

(** [interface Rule]. *)
Record Rule := mkRule {
  attribute : Attribute;
  comparison : Comparison;
  data : string
}.

(** [interface Album]. *)
Record Album := mkAlbum {
  name : string;
  followAllRules : bool;
  rules : list Rule
}.

(** [song[key]] restricted to the string-valued properties of a [Song];
    any other key reads as [undefined]. *)
Definition songProp (song : Song) (key : string) : option string :=
  if String.eqb key "id" then Some (id song)
  else if String.eqb key "title" then Some (title song)
  else if String.eqb key "artist" then artist song
  else if String.eqb key "album" then album song
  else if String.eqb key "genre" then genre song
  else if String.eqb key "year" then year song
  else None.

(** ** Smart playlist filter ([filterSongs]) *)

(** The disjunction tested in OR mode: the rule's comparison holds. *)
Definition ruleHolds (rule : Rule) (attr : string) : bool :=
  match comparison rule with
  | Comparison_is => JS.strictEq attr (data rule)
  | Comparison_isNot => negb (JS.strictEq attr (data rule))
  | Comparison_includes => JS.includes attr (data rule)
  | Comparison_doesNotInclude => negb (JS.includes attr (data rule))
  end.

(** The disjunction tested in AND mode: the rule's comparison fails. *)
Definition ruleFails (rule : Rule) (attr : string) : bool :=
  match comparison rule with
  | Comparison_is => negb (JS.strictEq attr (data rule))
  | Comparison_isNot => JS.strictEq attr (data rule)
  | Comparison_includes => negb (JS.includes attr (data rule))
  | Comparison_doesNotInclude => JS.includes attr (data rule)
  end.

(** [rule.attribute.toLowerCase()], the property a rule reads. *)
Definition ruleKey (rule : Rule) : string :=
  JS.toLowerCase (attributeValue (attribute rule)).

(** One iteration of the [for] loop of the filter callback:
    [Some b] is [return b], [None] falls through to the next rule. *)
Definition ruleStep (followAll : bool) (rule : Rule) (song : Song)
  : option bool :=
  let attr := songProp song (ruleKey rule) in
  match attr with
  | None => Some false
  | Some a =>
      if JS.falsy a then Some false
      else if negb followAll && ruleHolds rule a then Some true
      else if followAll && ruleFails rule a then Some false
      else None
  end.

(** The callback given to [allSongs.filter]: the loop over the rules,
    then [if (followAllRules) return true; else return false]. *)
Fixpoint songMatches (followAll : bool) (rs : list Rule) (song : Song) : bool :=
  match rs with
  | [] => if followAll then true else false
  | rule :: rest =>
      match ruleStep followAll rule song with
      | Some verdict => verdict
      | None => songMatches followAll rest song
      end
  end.

(** [filterSongs]: [allSongs?.filter(...)], where [allSongs] is
    [undefined] until the live query has answered. *)
Definition filterSongs (allSongs : option (list Song)) (a : Album)
  : option (list Song) :=
  match allSongs with
  | None => None
  | Some songs =>
      Some (List.filter (songMatches (followAllRules a) (rules a)) songs)
  end.

(** The song lacks the attribute a rule refers to: [!attribute]. *)
Definition lacks (song : Song) (rule : Rule) : bool :=
  JS.falsyOpt (songProp song (ruleKey rule)).

(** The song has the attribute of the rule and the comparison holds:
    what makes the loop [return true] in OR mode. *)
Definition ruleAccepts (rule : Rule) (song : Song) : bool :=
  match songProp song (ruleKey rule) with
  | Some a => negb (JS.falsy a) && ruleHolds rule a
  | None => false
  end.

(** ** The local store ([db.songs], a Dexie table keyed by [id]) *)

(** The records of the table. The schema declares [id] as the unique
    primary key; [add] enforces it. *)
Definition Table := list Song.

(** The object given to [Table.update]: for each property, [None] when
    the object has no such key, [Some v] when it has ([v] itself is
    [None] for a key whose value is [undefined]). *)
Record SongChanges := mkChanges {
  ch_id : option string;
  ch_blob : option Blob;
  ch_lastEditedUtc : option Z;
  ch_title : option string;
  ch_artist : option (option string);
  ch_album : option (option string);
  ch_genre : option (option string);
  ch_year : option (option string);
  ch_cover : option (option Blob)
}.

(** A [Song] object literal that spells out all nine keys, seen as the
    changes it makes when passed to [update]. *)
Definition changesOf (s : Song) : SongChanges :=
  {| ch_id := Some (id s);
     ch_blob := Some (blob s);
     ch_lastEditedUtc := Some (lastEditedUtc s);
     ch_title := Some (title s);
     ch_artist := Some (artist s);
     ch_album := Some (album s);
     ch_genre := Some (genre s);
     ch_year := Some (year s);
     ch_cover := Some (cover s) |}.

Module Dexie.

(** What a table operation answers. *)
Inductive Answer :=
| Done
| ConstraintError.

(** [table.get(key)]. *)
Definition get (key : string) (t : Table) : option Song :=
  List.find (fun s => String.eqb (id s) key) t.

(** [table.toArray()]. *)
Definition toArray (t : Table) : list Song := t.

(** [table.add(record)]: rejected when the key is taken. *)
Definition add (record : Song) (t : Table) : Table * Answer :=
  match get (id record) t with
  | Some _ => (t, ConstraintError)
  | None => ((t ++ [record])%list, Done)
  end.

(** Setting the key paths of [c] on a stored record: a key whose value
    is [undefined] removes the property. *)
Definition modify (c : SongChanges) (s : Song) : Song :=
  {| id := default (id s) (ch_id c);
     blob := default (blob s) (ch_blob c);
     lastEditedUtc := default (lastEditedUtc s) (ch_lastEditedUtc c);
     title := default (title s) (ch_title c);
     artist := default (artist s) (ch_artist c);
     album := default (album s) (ch_album c);
     genre := default (genre s) (ch_genre c);
     year := default (year s) (ch_year c);
     cover := default (cover s) (ch_cover c) |}.

(** Whether the changes leave the primary key [key] alone. *)
Definition keepsKey (key : string) (c : SongChanges) : bool :=
  match ch_id c with
  | None => true
  | Some i => String.eqb i key
  end.

(** [table.update(key, changes)]: the record stored under [key], if
    any, has the changes applied. The component never changes a primary
    key; such a call is modelled as leaving the table as it is. *)
Definition update (key : string) (c : SongChanges) (t : Table) : Table :=
  if keepsKey key c then
    List.map (fun s => if String.eqb (id s) key then modify c s else s) t
  else t.

(** [table.delete(key)]. *)
Definition delete (key : string) (t : Table) : Table :=
  List.filter (fun s => negb (String.eqb (id s) key)) t.

End Dexie.

(** ** Ingestion ([formatSongToStorage], [handleAddSong]) *)

(** The embedded picture of a tag: [image.data] and [image.mime]. *)
Record TagImage := mkTagImage {
  imageData : list Byte.byte;
  imageMime : string
}.

(** [ITags] of the tag parser, the properties the component reads. *)
Record ITags := mkTags {
  tagTitle : option string;
  tagArtist : option string;
  tagAlbum : option string;
  tagGenre : option string;
  tagYear : option string;
  tagImage : option TagImage
}.

(** [google.picker.DocumentObject], the properties the component reads. *)
Record DocumentObject := mkDoc {
  docId : string;
  docName : string;
  docLastEditedUtc : Z;
  docMimeType : option string
}.

(** [v?.replaceAll('\u0000', '')]. *)
Definition stripNul (v : option string) : option string :=
  option_map (JS.removeAll JS.NUL) v.

(** The title after the first statement of [formatSongToStorage]:
    [if (!metaData.title) metaData.title = name.split('.')[0]]. *)
Definition titleOrName (doc : DocumentObject) (metaData : ITags) : string :=
  match tagTitle metaData with
  | Some t => if JS.falsy t then fst (JS.split JS.DOT (docName doc)) else t
  | None => fst (JS.split JS.DOT (docName doc))
  end.

(** [formatSongToStorage({ ...song, blob, metaData })]. *)
Definition formatSongToStorage
  (doc : DocumentObject) (fetched : Blob) (metaData : ITags) : Song :=
  {| id := docId doc;
     blob := fetched;
     title := JS.removeAll JS.NUL (titleOrName doc metaData);
     lastEditedUtc := docLastEditedUtc doc;
     artist := stripNul (tagArtist metaData);
     album := stripNul (tagAlbum metaData);
     genre := stripNul (tagGenre metaData);
     year := stripNul (tagYear metaData);
     cover := match tagImage metaData with
              | Some img => Some (mkBlob (imageData img) (imageMime img))
              | None => None
              end |}.

(** How a call of [handleAddSong] ends. *)
Inductive Completion :=
| Returned
| Threw (message : string).

Section Ingestion.

(** The answer of the download of a file, by file id ([None]: the
    request fails), and the tag parser ([None]: no tags found). *)
Variable fetchMedia : string -> option Blob.
Variable parse : list Byte.byte -> option ITags.

(** [duplicate && duplicate.lastEditedUtc >= song.lastEditedUtc]. *)
Definition upToDate (duplicate : option Song) (doc : DocumentObject) : bool :=
  match duplicate with
  | Some d => lastEditedUtc d >=? docLastEditedUtc doc
  | None => false
  end.

(** [handleAddSong], run to completion on the table. *)
Definition handleAddSong (doc : DocumentObject) (t : Table)
  : Table * Completion :=
  let duplicate := Dexie.get (docId doc) t in
  if upToDate duplicate doc then (t, Returned)
  else
    match fetchMedia (docId doc) with
    | None => (t, Threw "Failed to fetch")
    | Some fetched =>
        match parse (blobBytes fetched) with
        | None => (t, Threw "Invalid metadata")
        | Some metaData =>
            let record := formatSongToStorage doc fetched metaData in
            match duplicate with
            | Some _ =>
                (Dexie.update (docId doc) (changesOf record) t, Returned)
            | None => (fst (Dexie.add record t), Returned)
            end
        end
    end.

(** A sequence of ingestions, one document after the other. *)
Definition ingestAll (docs : list DocumentObject) (t : Table) : Table :=
  List.fold_left (fun acc doc => fst (handleAddSong doc acc)) docs t.

End Ingestion.

(** The rule of the specification for the fallback title: the file name
    with its extension removed, the extension being what follows the
    last dot. *)
Module SpecTitle.

(** Whether a dot occurs in the string. *)
Fixpoint hasDot (s : string) : bool :=
  match s with
  | EmptyString => false
  | String c rest => Ascii.eqb c JS.DOT || hasDot rest
  end.

(** The name up to its last dot; the whole name when it has no dot. *)
Fixpoint stem (s : string) : string :=
  match s with
  | EmptyString => EmptyString
  | String c rest =>
      if Ascii.eqb c JS.DOT && negb (hasDot rest) then EmptyString
      else String c (stem rest)
  end.

End SpecTitle.

(** ** Object URLs ([URL.createObjectURL], [URL.revokeObjectURL]) *)

(** The registry of object URLs: URLs are numbered in the order of their
    creation, and every call of [revokeObjectURL] is logged. *)
Record UrlStore := mkUrls {
  issued : nat;
  revokedLog : list nat
}.

Definition createObjectURL (u : UrlStore) : nat * UrlStore :=
  (issued u, {| issued := S (issued u); revokedLog := revokedLog u |}).

Definition revokeObjectURL (h : nat) (u : UrlStore) : UrlStore :=
  {| issued := issued u; revokedLog := (revokedLog u ++ [h])%list |}.

(** How many times a URL has been revoked. *)
Definition releases (h : nat) (u : UrlStore) : nat :=
  List.count_occ Nat.eq_dec (revokedLog u) h.

(** ** Cover image cache (the effect on [allSongs]) *)

(** A value of [songToCover]: [{ cover, lastUpdatedUtc }]. *)
Record CoverEntry := mkEntry {
  entryCover : nat;
  lastUpdatedUtc : Z
}.

(** [songMap]: [Object.fromEntries(allSongs.map(song => [song.id, song]))],
    or [{}] while [allSongs] is undefined. *)
Definition songMap (allSongs : option (list Song)) : gmap string Song :=
  match allSongs with
  | None => ∅
  | Some songs => List.fold_left (fun m song => <[id song := song]> m) songs ∅
  end.

(** The three objects the effect works on: [songToCover] (the current
    state object, which the first loop mutates in place),
    [newSongToCover] (its shallow copy, made before the loops) and the
    URL registry. *)
Record CoverWork := mkWork {
  songToCover : gmap string CoverEntry;
  newSongToCover : gmap string CoverEntry;
  coverUrls : UrlStore
}.

(** The body of [allSongs.forEach]. *)
Definition refreshSong (w : CoverWork) (song : Song) : CoverWork :=
  let kept :=
    match songToCover w !! id song with
    | Some e =>
        if lastEditedUtc song >? lastUpdatedUtc e
        then delete (id song) (songToCover w)
        else songToCover w
    | None => songToCover w
    end in
  match kept !! id song, cover song with
  | None, Some _ =>
      let (h, u) := createObjectURL (coverUrls w) in
      {| songToCover := kept;
         newSongToCover :=
           <[id song := mkEntry h (lastEditedUtc song)]> (newSongToCover w);
         coverUrls := u |}
  | _, _ =>
      {| songToCover := kept;
         newSongToCover := newSongToCover w;
         coverUrls := coverUrls w |}
  end.

(** The body of [Object.keys(songToCover).forEach], for the key [key]
    whose value in [songToCover] is [e]. *)
Definition sweepKey (known : gmap string Song)
  (target : gmap string CoverEntry * UrlStore) (item : string * CoverEntry)
  : gmap string CoverEntry * UrlStore :=
  match known !! fst item with
  | None => (delete (fst item) (fst target),
             revokeObjectURL (entryCover (snd item)) (snd target))
  | Some _ => target
  end.

(** The whole effect: the state handed to [setSongToCover], and the URL
    registry after it. *)
Definition refreshCovers (allSongs : option (list Song))
  (cache : gmap string CoverEntry) (u : UrlStore)
  : gmap string CoverEntry * UrlStore :=
  let w0 := {| songToCover := cache;
               newSongToCover := cache;
               coverUrls := u |} in
  let w := List.fold_left refreshSong (default [] allSongs) w0 in
  List.fold_left (sweepKey (songMap allSongs))
    (map_to_list (songToCover w)) (newSongToCover w, coverUrls w).

(** The effect run once for each successive value of [allSongs]. *)
Definition refreshAll (history : list (option (list Song)))
  (cache : gmap string CoverEntry) (u : UrlStore)
  : gmap string CoverEntry * UrlStore :=
  List.fold_left (fun st songs => refreshCovers songs (fst st) (snd st))
    history (cache, u).

(** The cache holds the URL [h] as the current cover of some song. *)
Definition holds (cache : gmap string CoverEntry) (h : nat) : Prop :=
  exists key e, cache !! key = Some e /\ entryCover e = h.

(** The URL [h] has leaked: it was created, no call has revoked it, and
    the cache, through which alone the effect finds the URLs to revoke,
    does not hold it. *)
Definition leaked (h : nat) (cache : gmap string CoverEntry) (u : UrlStore)
  : Prop :=
  (h < issued u)%nat /\ ~ holds cache h /\ ~ In h (revokedLog u).

(** What the first loop of the effect maintains about a leaked URL:
    neither object holds it, and it is created and not revoked. *)
Definition untouched (h : nat) (w : CoverWork) : Prop :=
  ~ holds (songToCover w) h /\ ~ holds (newSongToCover w) h /\
  (h < issued (coverUrls w))%nat /\ ~ In h (revokedLog (coverUrls w)).

(** ** Playback selection ([playSong]) *)

(** Modelled from the spec: the notification component
    ([./components/Notification]) is not among the sources at hand. Its
    [notify] shows a success notice and its [error] a failure notice;
    a call is recorded as the notice it asks for. *)
Inductive Notice :=
| Notify (description : string)
| Error (message : string).

(** The playback state: [currentSong], [audio.src] (the object URL it
    was given, [None] for the initial empty source), whether the element
    plays, the URL registry, the notices shown so far and the number of
    calls of [Math.random] made so far. *)
Record Player := mkPlayer {
  currentSong : option Song;
  audioSrc : option nat;
  audioPlaying : bool;
  playerUrls : UrlStore;
  notices : list Notice;
  randomCalls : nat
}.

(** The album looked up by [albums.value.find(...)], or the literal
    [{ followAllRules: true, rules: [], name: '' }]. *)
Definition activeAlbum (albums : list Album) (currentAlbum : string) : Album :=
  match List.find (fun a => JS.strictEq (name a) currentAlbum) albums with
  | Some a => a
  | None => {| followAllRules := true; rules := []; name := "" |}
  end.

(** [Math.floor(r * n)]. *)
Definition randomIndex (r : Q) (n : nat) : nat :=
  Z.to_nat (Qfloor (r * inject_Z (Z.of_nat n))).

(** [newSong.id === currentSong?.id]. *)
Definition isCurrent (newSong : Song) (current : option Song) : bool :=
  match current with
  | Some c => JS.strictEq (id newSong) (id c)
  | None => false
  end.

(** [URL.revokeObjectURL(audio.src)]: an empty source revokes nothing. *)
Definition revokeSource (src : option nat) (u : UrlStore) : UrlStore :=
  match src with
  | Some h => revokeObjectURL h u
  | None => u
  end.

(** How a call of [playSong] ends: with [song] loaded, at the early
    [return] after the error notice, or with the [TypeError] of reading
    [.id] of [undefined]. *)
Inductive Played :=
| Selected (song : Song)
| NoSongs
| TypeError.

Section Playback.

(** The successive values of [Math.random()]. *)
Variable random : nat -> Q.

(** What the component has at hand when [playSong] runs. *)
Variable allSongs : option (list Song).
Variable albums : list Album.
Variable currentAlbum : string.

(** [filteredSongs[Math.floor(Math.random() * filteredSongs.length)]],
    drawn with the [k]-th random number. *)
Definition draw (filtered : list Song) (k : nat) : option Song :=
  filtered !! randomIndex (random k) (length filtered).

(** The [while] loop, entered with [newSong] and [k] random numbers
    used. [None]: the fuel ran out; [Some (None, k)]: an index fell
    outside the array, and reading [.id] of [undefined] throws;
    [Some (Some s, k)]: the loop ends with [newSong = s]. *)
Fixpoint reroll (fuel : nat) (filtered : list Song) (current : option Song)
  (k : nat) (newSong : Song) : option (option Song * nat) :=
  match fuel with
  | O => None
  | S fuel' =>
      if isCurrent newSong current && (1 <? length filtered)%nat then
        match draw filtered k with
        | Some s => reroll fuel' filtered current (S k) s
        | None => Some (None, S k)
        end
      else Some (Some newSong, k)
  end.

(** [playSong] up to the emptiness test: [URL.revokeObjectURL(audio.src)]. *)
Definition released (p : Player) : Player :=
  {| currentSong := currentSong p;
     audioSrc := audioSrc p;
     audioPlaying := audioPlaying p;
     playerUrls := revokeSource (audioSrc p) (playerUrls p);
     notices := notices p;
     randomCalls := randomCalls p |}.

(** [error('There are currently no songs to play')]. *)
Definition complain (p : Player) : Player :=
  {| currentSong := currentSong p;
     audioSrc := audioSrc p;
     audioPlaying := audioPlaying p;
     playerUrls := playerUrls p;
     notices :=
       (notices p ++ [Error "There are currently no songs to play"])%list;
     randomCalls := randomCalls p |}.

(** The state once [k] random numbers have been used. *)
Definition drawn (k : nat) (p : Player) : Player :=
  {| currentSong := currentSong p;
     audioSrc := audioSrc p;
     audioPlaying := audioPlaying p;
     playerUrls := playerUrls p;
     notices := notices p;
     randomCalls := k |}.

(** The end of [playSong]: [setCurrentSong(song)], a new object URL as
    [audio.src], [audio.play()]. *)
Definition load (song : Song) (p : Player) : Player :=
  let (h, u) := createObjectURL (playerUrls p) in
  {| currentSong := Some song;
     audioSrc := Some h;
     audioPlaying := true;
     playerUrls := u;
     notices := notices p;
     randomCalls := randomCalls p |}.

(** [playSong(song)]; [song = None] is the call without argument.
    [None]: the loop did not end within the fuel. *)
Definition playSong (fuel : nat) (song : option Song) (p : Player)
  : option (Player * Played) :=
  let p1 := released p in
  match filterSongs allSongs (activeAlbum albums currentAlbum) with
  | None | Some [] => Some (complain p1, NoSongs)
  | Some filtered =>
      match song with
      | Some s => Some (load s p1, Selected s)
      | None =>
          match draw filtered (randomCalls p1) with
          | None => Some (drawn (S (randomCalls p1)) p1, TypeError)
          | Some first =>
              match reroll fuel filtered (currentSong p1)
                      (S (randomCalls p1)) first with
              | None => None
              | Some (None, k) => Some (drawn k p1, TypeError)
              | Some (Some s, k) => Some (load s (drawn k p1), Selected s)
              end
          end
      end
  end.

(** [n] calls of [playSong()] in a row, each reading the [currentSong]
    the previous one set, as the handler of the Next button does, which
    every render builds anew; the songs selected, in order. (The
    handler of [audio.onended] is another matter: see [onended].) *)
Fixpoint playNext (fuel n : nat) (p : Player) : option (list Song) :=
  match n with
  | O => Some []
  | S n' =>
      match playSong fuel None p with
      | Some (p', Selected s) =>
          match playNext fuel n' p' with
          | Some rest => Some (s :: rest)
          | None => None
          end
      | _ => None
      end
  end.

(** The state as a [playSong] built by an earlier render reads it: the
    [currentSong] of that render, and [audio] and the object URLs, which
    are not React state, as they are now. *)
Definition sees (captured : option Song) (p : Player) : Player :=
  {| currentSong := captured;
     audioSrc := audioSrc p;
     audioPlaying := audioPlaying p;
     playerUrls := playerUrls p;
     notices := notices p;
     randomCalls := randomCalls p |}.

(** [audio.onended = () => playSong()], set by the effect on
    [allSongs]: the [playSong] of the render that ran the effect, in
    which [currentSong] was [captured]. The effect does not run again
    when [currentSong] changes. [allSongs], the dependency of the
    effect, is that of the call. A call that selects a song sets
    [currentSong]; one that does not leaves the real [currentSong]. *)
Definition onended (captured : option Song) (fuel : nat) (p : Player)
  : option (Player * Played) :=
  match playSong fuel None (sees captured p) with
  | Some (p', Selected s) => Some (p', Selected s)
  | Some (p', ended) => Some (sees (currentSong p) p', ended)
  | None => None
  end.

End Playback.

(** No song of [selected] is the one selected (or loaded) just before
    it, [current] being the song loaded at the start. *)
Fixpoint noRepeat (current : option Song) (selected : list Song) : Prop :=
  match selected with
  | [] => True
  | s :: rest => isCurrent s current = false /\ noRepeat (Some s) rest
  end.

(** ** Completion of an ingestion call ([handleAddFolder],
    [handlePickerChange])

    Promises in logical time: a promise is the instant at which it settles
    and how; [await] resumes at that instant. *)

Inductive Outcome :=
| Fulfilled
| Rejected (reason : string).

Record Promise := mkPromise {
  settledAt : nat;
  outcome : Outcome
}.

(** What was picked, with what the outside world answers: for an audio
    file, after how long the call of [handleAddSong] on it settles and
    how; for a folder, after how long [gapi.client.drive.files.list]
    answers, with the children ([None]: the request is rejected). *)
#[warnings="-register-all"]
Inductive DriveItem :=
| DriveFile (took : nat) (result : Outcome)
| DriveFolder (took : nat) (listing : option (list DriveItem)).

(** The earliest rejection among promises (the first one in case of a
    tie). *)
Fixpoint firstRejection (ps : list Promise) : option Promise :=
  match ps with
  | [] => None
  | p :: rest =>
      match outcome p, firstRejection rest with
      | Fulfilled, r => r
      | Rejected _, None => Some p
      | Rejected _, Some q =>
          if (settledAt q <? settledAt p)%nat then Some q else Some p
      end
  end.

(** [Promise.all(ps)] called at [now]: rejected with the first rejection,
    else fulfilled once every promise is. *)
Definition promiseAll (now : nat) (ps : list Promise) : Promise :=
  match firstRejection ps with
  | Some p => p
  | None =>
      {| settledAt := List.fold_left Nat.max (List.map settledAt ps) now;
         outcome := Fulfilled |}
  end.

(** The callback of [list.result.files.map] in [handleAddFolder], called
    at [now] on one child: it awaits [handleAddFolder(doc)] for a folder
    and [handleAddSong(doc)] for a file, so its promise settles as that
    call does. The result is that promise, and the promises of all the
    calls of [handleAddSong] and [handleAddFolder] made on its behalf,
    that call included. For a folder: the listing is awaited, then
    [Promise.all] of the callbacks of the children. *)
Fixpoint folderCallback (now : nat) (item : DriveItem)
  : Promise * list Promise :=
  match item with
  | DriveFile took result =>
      let p := {| settledAt := now + took; outcome := result |} in
      (p, [p])
  | DriveFolder took None =>
      let p := {| settledAt := now + took;
                  outcome := Rejected "files.list" |} in
      (p, [p])
  | DriveFolder took (Some children) =>
      let listed := (now + took)%nat in
      let calls := List.map (folderCallback listed) children in
      let p := promiseAll listed (List.map fst calls) in
      (p, p :: List.concat (List.map snd calls))
  end.

(** [handleAddFolder(folder)] called at [now]. *)
Definition handleAddFolder (now took : nat) (listing : option (list DriveItem))
  : Promise * list Promise :=
  folderCallback now (DriveFolder took listing).

(** [handleAddSong(song)] called at [now], as a promise. *)
Definition handleAddSongAt (now took : nat) (result : Outcome)
  : Promise * list Promise :=
  folderCallback now (DriveFile took result).

(** The callback of [data.map] in [handlePickerChange], called at [now]:
    a folder is handed to [handleAddFolder], whose promise is dropped, so
    the callback is fulfilled at once; the call on a file is awaited. *)
Definition pickerCallback (now : nat) (item : DriveItem)
  : Promise * list Promise :=
  match item with
  | DriveFolder took listing =>
      ({| settledAt := now; outcome := Fulfilled |},
       snd (handleAddFolder now took listing))
  | DriveFile took result => handleAddSongAt now took result
  end.

(** What a call of [handlePickerChange] amounts to: when it completes,
    the notices it shows, and the promises of all the work it spawned. *)
Record Report := mkReport {
  completedAt : nat;
  shown : list Notice;
  spawned : list Promise
}.

Definition handlePickerChange (data : list DriveItem) : Report :=
  let calls := List.map (pickerCallback 0) data in
  let all := promiseAll 0 (List.map fst calls) in
  {| completedAt := settledAt all;
     shown := match outcome all with
              | Fulfilled => [Notify "Songs uploaded and updated"]
              | Rejected e => [Error e]
              end;
     spawned := List.concat (List.map snd calls) |}.

(** ** Sample data for the examples *)

Module Sample.

Definition mp3 : Blob := mkBlob [] "audio/mpeg".
Definition jpeg : Blob := mkBlob [] "image/jpeg".
Definition noTags : ITags := mkTags None None None None None None.

(** A song with a title and nothing else. *)
Definition untagged : Song :=
  mkSong "s1" mp3 100 "Intro" None None None None None.

(** The same song, its artist edited to the empty string. *)
Definition blankArtist : Song :=
  mkSong "s1" mp3 100 "Intro" (Some "") None None None None.

Definition titleIsIntro : Rule := mkRule Attribute_Title Comparison_is "Intro".
Definition artistIsQueen : Rule :=
  mkRule Attribute_Artist Comparison_is "Queen".
Definition artistIsNotQueen : Rule :=
  mkRule Attribute_Artist Comparison_isNot "Queen".

(** The stored record of the last-writer-wins example, an older and a
    newer version of its document, and an outside world in which every
    download and every parse succeeds. *)
Definition stored100 : Song :=
  mkSong "s1" mp3 100 "Intro" (Some "Queen") None None None (Some jpeg).
Definition doc50 : DocumentObject := mkDoc "s1" "intro.mp3" 50 None.
Definition doc150 : DocumentObject := mkDoc "s1" "intro.mp3" 150 None.
Definition newBlob : Blob := mkBlob [Byte.x49; Byte.x44; Byte.x33] "audio/mpeg".
Definition newTags : ITags :=
  mkTags (Some "Outro") None (Some "Jazz") None None None.
Definition fetchMedia (fileId : string) : option Blob := Some newBlob.
Definition parse (bytes : list Byte.byte) : option ITags := Some newTags.

(** A song with a cover, before and after an edit that changed the
    cover, and the same song after an edit that removed it. *)
Definition covered100 : Song :=
  mkSong "s1" mp3 100 "Intro" None None None None (Some jpeg).
Definition covered150 : Song :=
  mkSong "s1" mp3 150 "Intro" None None None None
    (Some (mkBlob [Byte.xff] "image/jpeg")).
Definition bare150 : Song :=
  mkSong "s1" mp3 150 "Intro" None None None None None.

(** The cache once [covered100] has been seen: its cover is URL 0. *)
Definition cache100 : gmap string CoverEntry := {[ "s1" := mkEntry 0 100 ]}.
Definition urls1 : UrlStore := mkUrls 1 [].

(** A second song, and a player in which [untagged] is loaded and
    playing from the object URL 0. *)
Definition other : Song :=
  mkSong "s2" mp3 100 "Outro" None None None None None.
Definition playing : Player :=
  {| currentSong := Some untagged;
     audioSrc := Some 0%nat;
     audioPlaying := true;
     playerUrls := mkUrls 1 [];
     notices := [];
     randomCalls := 0 |}.

(** A player in which nothing has been loaded yet. *)
Definition idle : Player :=
  {| currentSong := None;
     audioSrc := None;
     audioPlaying := false;
     playerUrls := mkUrls 0 [];
     notices := [];
     randomCalls := 0 |}.

(** A random source that always answers [0], and one that answers
    [0] and [1/2] in turn. *)
Definition zeros (k : nat) : Q := 0.
Definition alternating (k : nat) : Q := if Nat.even k then 0 else 1 # 2.

End Sample.

(** ** Further parts of the component *)

(** *** The search box (the live query [songs]) *)

(** The callback of [db.songs.filter] in the live query [songs]:
    [song.title.toLowerCase().includes(searchQuery.toLowerCase())].
    [String.prototype.toLowerCase] lowers the letters of every script,
    some of them by what stands around them; it is not computed here:
    the callback is given for the function [toLowerCase] it calls. *)
Definition searchMatches (toLowerCase : string -> string)
  (searchQuery : string) (song : Song) : bool :=
  JS.includes (toLowerCase (title song)) (toLowerCase searchQuery).

(** A string of ASCII characters. *)
Definition isAscii (s : string) : bool :=
  forallb (fun c => (nat_of_ascii c <? 128)%nat) (list_ascii_of_string s).

(** What is used of [String.prototype.toLowerCase]: in a string of ASCII
    characters it lowers the letters A to Z, each on its own, and keeps
    the other characters. *)
Definition lowersAscii (toLowerCase : string -> string) : Prop :=
  forall s, isAscii s = true -> toLowerCase s = JS.toLowerCase s.

(** The comparison that negates a comparison: [is] and [is not],
    [includes] and [does not include]. *)
Definition opposite (c : Comparison) : Comparison :=
  match c with
  | Comparison_is => Comparison_isNot
  | Comparison_isNot => Comparison_is
  | Comparison_includes => Comparison_doesNotInclude
  | Comparison_doesNotInclude => Comparison_includes
  end.

(** A rule with its comparison negated, on the same attribute and data. *)
Definition negated (rule : Rule) : Rule :=
  {| attribute := attribute rule;
     comparison := opposite (comparison rule);
     data := data rule |}.

(** *** What an ingestion leaves under the id of its document *)

Section Upsert.

Variable fetchMedia : string -> option Blob.
Variable parse : list Byte.byte -> option ITags.

(** The record that [db.songs.get(song.id)] answers after
    [handleAddSong(song)], given what it answered before: the decisions
    of [handleAddSong] read off its branches. *)
Definition upserted (doc : DocumentObject) (duplicate : option Song)
  : option Song :=
  if upToDate duplicate doc then duplicate
  else
    match fetchMedia (docId doc) with
    | None => duplicate
    | Some fetched =>
        match parse (blobBytes fetched) with
        | None => duplicate
        | Some metaData => Some (formatSongToStorage doc fetched metaData)
        end
    end.

(** Ingesting [doc] would change nothing in [t]. *)
Definition settled (doc : DocumentObject) (t : Table) : Prop :=
  upserted doc (Dexie.get (docId doc) t) = Dexie.get (docId doc) t.

End Upsert.

(** *** Editing and deleting a song (the song table of the page) *)

(** [v || ''] for a possibly undefined string. *)
Definition orEmpty (v : option string) : string :=
  match v with
  | Some s => s
  | None => EmptyString
  end.

(** The value of [editSongForm]. *)
Record EditSongForm := mkEditSongForm {
  form_id : string;
  form_album : string;
  form_title : string;
  form_artist : string;
  form_genre : string
}.

(** The pencil of a row: [editSongForm.set({ id: song.id, title:
    song.title, album: song.album || '', artist: song.artist || '',
    genre: song.genre || '' })]. *)
Definition openEditSong (song : Song) : EditSongForm :=
  {| form_id := id song;
     form_title := title song;
     form_album := orEmpty (album song);
     form_artist := orEmpty (artist song);
     form_genre := orEmpty (genre song) |}.

(** The form as the object given to [update]: its five keys. *)
Definition editChanges (form : EditSongForm) : SongChanges :=
  {| ch_id := Some (form_id form);
     ch_blob := None;
     ch_lastEditedUtc := None;
     ch_title := Some (form_title form);
     ch_artist := Some (Some (form_artist form));
     ch_album := Some (Some (form_album form));
     ch_genre := Some (Some (form_genre form));
     ch_year := None;
     ch_cover := None |}.

(** Submitting the form:
    [db.songs.update(editSongForm.id.value, editSongForm.value)]. *)
Definition submitEditSong (form : EditSongForm) (t : Table) : Table :=
  Dexie.update (form_id form) (editChanges form) t.

(** *** The cover cache, as a whole *)

(** The cache and the URL registry agree: every URL the cache holds has
    been created and never revoked, no two songs hold the same URL, and
    the registry has revoked only URLs it created, each at most once. *)
Definition coherent (cache : gmap string CoverEntry) (u : UrlStore) : Prop :=
  (forall key e, cache !! key = Some e ->
     (entryCover e < issued u)%nat /\ ~ In (entryCover e) (revokedLog u)) /\
  (forall k1 k2 e1 e2,
     cache !! k1 = Some e1 -> cache !! k2 = Some e2 ->
     entryCover e1 = entryCover e2 -> k1 = k2) /\
  Forall (fun h => (h < issued u)%nat) (revokedLog u) /\
  List.NoDup (revokedLog u).

(** What the first loop of the effect maintains: the entries left in
    [songToCover] are entries of [newSongToCover], whose URLs have all
    been created and differ from song to song. *)
Definition inStep (w : CoverWork) : Prop :=
  (forall key e, songToCover w !! key = Some e ->
     newSongToCover w !! key = Some e) /\
  (forall key e, newSongToCover w !! key = Some e ->
     (entryCover e < issued (coverUrls w))%nat) /\
  (forall k1 k2 e1 e2,
     newSongToCover w !! k1 = Some e1 -> newSongToCover w !! k2 = Some e2 ->
     entryCover e1 = entryCover e2 -> k1 = k2).

(** The three objects once [allSongs?.forEach] has run. *)
Definition firstLoop (allSongs : option (list Song))
  (cache : gmap string CoverEntry) (u : UrlStore) : CoverWork :=
  List.fold_left refreshSong (default [] allSongs)
    {| songToCover := cache; newSongToCover := cache; coverUrls := u |}.

(** *** The source of the audio element *)

(** [audio.src] is usable: the registry has revoked only URLs it
    created, and the URL in [audio.src], if any, has been created and
    not revoked. *)
Definition sourceLive (p : Player) : Prop :=
  Forall (fun h => (h < issued (playerUrls p))%nat)
    (revokedLog (playerUrls p)) /\
  (forall h, audioSrc p = Some h ->
     (h < issued (playerUrls p))%nat /\ ~ In h (revokedLog (playerUrls p))).

(** What [URL.revokeObjectURL(audio.src)] adds to the log. *)
Definition sourceAsList (src : option nat) : list nat :=
  match src with
  | Some h => [h]
  | None => []
  end.

(** *** Albums (the forms "Create a New Album" and "Edit an Album")

    [albums] is a hookstate array: [merge] with an array appends it,
    [merge] with [{ [i]: v }] sets the element [i], and with
    [{ [i]: none }] removes it. *)

(** What submitting a form leaves: the album list, the notice shown and
    whether the modal is still open. *)
Record Submitted := mkSubmitted {
  albumsAfter : list Album;
  noticeShown : Notice;
  stillOpen : bool
}.

(** [onSubmit] of the modal "Create a New Album". *)
Definition submitCreateAlbum (form : Album) (albums : list Album) : Submitted :=
  match List.find (fun a => JS.strictEq (name a) (name form)) albums with
  | Some _ =>
      {| albumsAfter := albums;
         noticeShown := Error "Album already exists";
         stillOpen := true |}
  | None =>
      {| albumsAfter := (albums ++ [form])%list;
         noticeShown := Notify "Album created!";
         stillOpen := false |}
  end.

(** [albums.value.findIndex((album) => album.name === n)]; [None] is
    [-1]. *)
Fixpoint findIndexByName (n : string) (albums : list Album) : option nat :=
  match albums with
  | [] => None
  | a :: rest =>
      if JS.strictEq (name a) n then Some O
      else option_map S (findIndexByName n rest)
  end.

(** [onSubmit] of the modal "Edit an Album", the form having been opened
    on the row [idx]. The album written is the form (its extra property
    [idx] is ignored by everything that reads an album). [None]: [idx]
    lies beyond the end of the array, which [merge] would extend. *)
Definition submitEditAlbum (form : Album) (idx : nat) (albums : list Album)
  : option Submitted :=
  let rejected :=
    match findIndexByName (name form) albums with
    | Some foundIdx => negb (Nat.eqb foundIdx idx)
    | None => false
    end in
  if rejected then
    Some {| albumsAfter := albums;
            noticeShown := Error "Album already exists";
            stillOpen := true |}
  else if (idx <? length albums)%nat then
    Some {| albumsAfter := <[idx := form]> albums;
            noticeShown := Notify "Album updated!";
            stillOpen := false |}
  else None.

(** The trash icon of the row [idx]: [albums.merge({ [idx]: none })]. *)
Definition deleteAlbum (idx : nat) (albums : list Album) : list Album :=
  (List.firstn idx albums ++ List.skipn (S idx) albums)%list.

(** *** Picked items that are files *)

Definition isFile (item : DriveItem) : bool :=
  match item with
  | DriveFile _ _ => true
  | DriveFolder _ _ => false
  end.

(** *** The modal ([components/Modal.tsx]) *)

(** The prop [show], the states [modalDeleted] and [pseudoShow], and
    whether the scroll of the body is locked on the modal
    ([disableBodyScroll] / [enableBodyScroll] of the library
    body-scroll-lock, on the one element [modalRef.current]). *)
Record ModalState := mkModal {
  show : bool;
  modalDeleted : bool;
  pseudoShow : bool;
  scrollLocked : bool
}.

(** The body of the effect on [show, modalDeleted, pseudoShow]. *)
Definition modalEffect (m : ModalState) : ModalState :=
  if show m && modalDeleted m && negb (pseudoShow m) then
    {| show := show m; modalDeleted := false;
       pseudoShow := pseudoShow m; scrollLocked := scrollLocked m |}
  else if show m && negb (modalDeleted m) && negb (pseudoShow m) then
    {| show := show m; modalDeleted := modalDeleted m;
       pseudoShow := true; scrollLocked := true |}
  else if negb (show m) && negb (modalDeleted m) && pseudoShow m then
    {| show := show m; modalDeleted := modalDeleted m;
       pseudoShow := false; scrollLocked := false |}
  else m.

(** [onTransitionEnd={() => !show && setModalDeleted(true)}]. *)
Definition onTransitionEnd (m : ModalState) : ModalState :=
  if negb (show m) then
    {| show := show m; modalDeleted := true;
       pseudoShow := pseudoShow m; scrollLocked := scrollLocked m |}
  else m.

(** The parent sets the prop [show]. *)
Definition setShow (b : bool) (m : ModalState) : ModalState :=
  {| show := b; modalDeleted := modalDeleted m;
     pseudoShow := pseudoShow m; scrollLocked := scrollLocked m |}.

(** What can happen to a mounted modal. *)
Inductive ModalEvent :=
| SetShow (b : bool)
| TransitionEnd.

(** An event, followed by the effect run until it changes nothing (each
    change of state runs it again; two runs always suffice). *)
Definition modalStep (m : ModalState) (ev : ModalEvent) : ModalState :=
  let m' := match ev with
            | SetShow b => setShow b m
            | TransitionEnd => onTransitionEnd m
            end in
  modalEffect (modalEffect m').

(** The modal when it mounts with the prop [show], the effect having
    run. *)
Definition modalMounted (shown : bool) : ModalState :=
  modalEffect (modalEffect
    {| show := shown; modalDeleted := true;
       pseudoShow := false; scrollLocked := false |}).

(** *** The first version of the picker ([src/App.tsx]) *)

Module FirstVersion.

(** [formatSongToStorage] of the first version: the tags as they are. *)
Definition formatSongToStorage
  (doc : DocumentObject) (fetched : Blob) (metaData : ITags) : Song :=
  {| id := docId doc;
     blob := fetched;
     title := titleOrName doc metaData;
     lastEditedUtc := docLastEditedUtc doc;
     artist := tagArtist metaData;
     album := tagAlbum metaData;
     genre := tagGenre metaData;
     year := tagYear metaData;
     cover := match tagImage metaData with
              | Some img => Some (mkBlob (imageData img) (imageMime img))
              | None => None
              end |}.

(** A picked document with its downloaded blob and its tags. *)
Definition Fetched : Type := DocumentObject * Blob * ITags.

Section Picker.

Variable fetchMedia : string -> option Blob.
Variable parse : list Byte.byte -> option ITags.

(** The promise made for one document: the download, then the parser;
    [None] when it is rejected. *)
Definition fetchAndParse (doc : DocumentObject) : option Fetched :=
  match fetchMedia (docId doc) with
  | None => None
  | Some fetched =>
      match parse (blobBytes fetched) with
      | None => None
      | Some metaData => Some (doc, fetched, metaData)
      end
  end.

(** [await Promise.all(data.map(...))]: all the results, or [None] when
    one of the promises is rejected. *)
Fixpoint fetchAll (data : list DocumentObject) : option (list Fetched) :=
  match data with
  | [] => Some []
  | doc :: rest =>
      match fetchAndParse doc, fetchAll rest with
      | Some r, Some rs => Some (r :: rs)
      | _, _ => None
      end
  end.

(** The callback of [forEach]. The callbacks are not awaited: each one
    issues its [get] before any of them writes, so the duplicate is
    looked up in the table [seen] that the call found, and the write is
    applied to the table [t] as the earlier callbacks left it. *)
Definition store (seen t : Table) (song : Fetched) : Table :=
  let '(doc, fetched, metaData) := song in
  match Dexie.get (docId doc) seen with
  | Some duplicate =>
      if lastEditedUtc duplicate <? docLastEditedUtc doc then
        Dexie.update (docId doc)
          (changesOf (formatSongToStorage doc fetched metaData)) t
      else t
  | None => fst (Dexie.add (formatSongToStorage doc fetched metaData) t)
  end.

(** [handlePickerChange] of the first version: the table it leaves and
    whether [error(e)] is called. *)
Definition handlePickerChange (data : list DocumentObject) (t : Table)
  : Table * bool :=
  match fetchAll data with
  | None => (t, true)
  | Some songs => (List.fold_left (store t) songs t, false)
  end.

End Picker.

(** The documents of a list of fetched songs. *)
Definition docsOf (songs : list Fetched) : list DocumentObject :=
  List.map (fun song : Fetched => fst (fst song)) songs.

(** The table holds, under the id of the document, a record at least as
    recent as the document. *)
Definition covered (doc : DocumentObject) (t : Table) : Prop :=
  exists r, Dexie.get (docId doc) t = Some r /\
            docLastEditedUtc doc <= lastEditedUtc r.

End FirstVersion.

(** *** More sample data *)

Module Sample2.

(** Tags whose genre ends in a null character. *)
Definition paddedTags : ITags :=
  mkTags (Some "Outro") None None (Some (String "R" (String "o" (String "c"
    (String "k" (String JS.NUL EmptyString)))))) None None.

(** A document that is not stored yet, and one whose download fails. *)
Definition docNew : DocumentObject := mkDoc "s2" "outro.mp3" 120 None.
Definition docLost : DocumentObject := mkDoc "s9" "lost.mp3" 120 None.
Definition fetchButLost (fileId : string) : option Blob :=
  if String.eqb fileId "s9" then None else Some Sample.newBlob.

(** Two albums. *)
Definition favorites : Album :=
  mkAlbum "Favorites" false [Sample.artistIsQueen].
Definition introOnly : Album := mkAlbum "Intro" true [Sample.titleIsIntro].

End Sample2.

(** * Properties *)

(** ** Smart playlist filter *)

Section FilterFacts.

Variable song : Song.

Lemma ruleStep_lacking (followAll : bool) (rule : Rule) :
  lacks song rule = true -> ruleStep followAll rule song = Some false.
Proof.
  unfold lacks, ruleStep.
  destruct (songProp song (ruleKey rule)) as [a|]; simpl; [|reflexivity].
  intros ->. reflexivity.
Qed.

(** In AND mode an iteration never accepts. *)
Lemma ruleStep_and_mode (rule : Rule) :
  ruleStep true rule song <> Some true.
Proof.
  unfold ruleStep.
  destruct (songProp song (ruleKey rule)) as [a|]; [|discriminate].
  destruct (JS.falsy a); [discriminate|]. simpl.
  destruct (ruleFails rule a); discriminate.
Qed.

(** In OR mode an iteration accepts exactly when the rule does. *)
Lemma ruleStep_or_mode (rule : Rule) :
  ruleStep false rule song = Some true <-> ruleAccepts rule song = true.
Proof.
  unfold ruleStep, ruleAccepts.
  destruct (songProp song (ruleKey rule)) as [a|]; [|split; discriminate].
  destruct (JS.falsy a); simpl; [split; discriminate|].
  destruct (ruleHolds rule a); split; intro; (reflexivity || discriminate).
Qed.

(** A rule whose attribute the song lacks rejects the song when the
    loop reaches it; in OR mode the loop reaches it unless an earlier
    rule accepted. *)
Lemma lacking_rule_reached (followAll : bool) (pre post : list Rule)
  (rule : Rule) :
  lacks song rule = true ->
  (followAll = false -> Forall (fun r => ruleAccepts r song = false) pre) ->
  songMatches followAll (pre ++ rule :: post) song = false.
Proof.
  intros Hlack Hpre. induction pre as [|r pre IH]; simpl.
  - rewrite (ruleStep_lacking _ _ Hlack). reflexivity.
  - destruct (ruleStep followAll r song) as [[|]|] eqn:Hstep.
    + destruct followAll.
      * exfalso. exact (ruleStep_and_mode r Hstep).
      * apply ruleStep_or_mode in Hstep.
        specialize (Hpre eq_refl). inversion Hpre as [|? ? Hr _]; subst.
        congruence.
    + reflexivity.
    + apply IH. intros E. specialize (Hpre E).
      inversion Hpre; assumption.
Qed.

End FilterFacts.

(** Two songs whose attributes are either equal or both lacking get the
    same verdict of every iteration. *)
Lemma ruleStep_same_truthy (followAll : bool) (rule : Rule) (s1 s2 : Song) :
  (songProp s1 (ruleKey rule) = songProp s2 (ruleKey rule) \/
   (lacks s1 rule = true /\ lacks s2 rule = true)) ->
  ruleStep followAll rule s1 = ruleStep followAll rule s2.
Proof.
  intros [E|[L1 L2]].
  - unfold ruleStep. rewrite E. reflexivity.
  - rewrite !ruleStep_lacking; auto.
Qed.

Lemma songMatches_same_truthy (followAll : bool) (rs : list Rule)
  (s1 s2 : Song) :
  (forall rule, In rule rs ->
     songProp s1 (ruleKey rule) = songProp s2 (ruleKey rule) \/
     (lacks s1 rule = true /\ lacks s2 rule = true)) ->
  songMatches followAll rs s1 = songMatches followAll rs s2.
Proof.
  induction rs as [|r rs IH]; intros H; simpl; [reflexivity|].
  rewrite (ruleStep_same_truthy followAll r s1 s2)
    by (apply H; left; reflexivity).
  destruct (ruleStep followAll r s2); [reflexivity|].
  apply IH. intros rule Hin. apply H. right. exact Hin.
Qed.

Lemma filter_all {A : Type} (f : A -> bool) (l : list A) :
  (forall x, f x = true) -> List.filter f l = l.
Proof.
  intros H. induction l as [|x l IH]; simpl; [reflexivity|].
  rewrite H, IH. reflexivity.
Qed.

Lemma filter_none {A : Type} (f : A -> bool) (l : list A) :
  (forall x, f x = false) -> List.filter f l = [].
Proof.
  intros H. induction l as [|x l IH]; simpl; [reflexivity|].
  rewrite H. exact IH.
Qed.

(** C3, as stated, fails: in OR mode a song that lacks the attribute of
    some rule of the list is accepted when an earlier rule matches it.
    Here the song has no artist, the second rule refers to the artist,
    and the first rule accepts the song. *)
Lemma C3_lacking_attribute_counterexample :
  ~ (forall (followAll : bool) (rs : list Rule) (song : Song) (rule : Rule),
       In rule rs -> lacks song rule = true ->
       songMatches followAll rs song = false).
Proof.
  intros H.
  specialize (H false [Sample.titleIsIntro; Sample.artistIsQueen]
                Sample.untagged Sample.artistIsQueen).
  assert (Hin : In Sample.artistIsQueen
                  [Sample.titleIsIntro; Sample.artistIsQueen])
    by (right; left; reflexivity).
  specialize (H Hin eq_refl). vm_compute in H. discriminate H.
Qed.

(** C3, amended: rules are evaluated in order. A rule whose attribute the
    song lacks rejects the song in AND mode wherever it stands in the
    list, and in OR mode unless an earlier rule of the list has accepted
    the song. *)
Theorem C3_lacking_attribute_rejects :
  forall (followAll : bool) (pre post : list Rule) (rule : Rule) (song : Song),
    lacks song rule = true ->
    (followAll = false -> Forall (fun r => ruleAccepts r song = false) pre) ->
    songMatches followAll (pre ++ rule :: post) song = false.
Proof.
  intros followAll pre post rule song. apply lacking_rule_reached.
Qed.

(** An instance in OR mode: the first rule does not accept the song, the
    second refers to the artist, which the song lacks. *)
Lemma C3_lacking_attribute_rejects_witness :
  songMatches false
    ([Sample.artistIsQueen] ++ Sample.artistIsNotQueen :: [Sample.titleIsIntro])
    Sample.untagged = false.
Proof.
  apply (C3_lacking_attribute_rejects false [Sample.artistIsQueen]
           [Sample.titleIsIntro] Sample.artistIsNotQueen Sample.untagged).
  - reflexivity.
  - intros _. constructor; [reflexivity | constructor].
Defined.

(** C4: an album without rules keeps every song when [followAllRules] is
    true and no song when it is false. *)
Theorem C4_empty_rule_list :
  forall (songs : list Song) (albumName : string),
    filterSongs (Some songs) (mkAlbum albumName true []) = Some songs /\
    filterSongs (Some songs) (mkAlbum albumName false []) = Some [].
Proof.
  intros songs albumName. unfold filterSongs; simpl. split; f_equal.
  - apply filter_all. reflexivity.
  - apply filter_none. reflexivity.
Qed.

(** C10: a rule that refers to an attribute holding the empty string
    rejects the song in its iteration of the loop, whatever its
    comparison and the mode; the filter rejects the song when the rule
    comes first, and gives, for any rule list, the verdict it gives to a
    song that differs only in not having the attribute at all. *)
Theorem C10_empty_string_as_missing :
  forall (followAll : bool) (rule : Rule) (song : Song),
    songProp song (ruleKey rule) = Some "" ->
    ruleStep followAll rule song = Some false /\
    (forall rest, songMatches followAll (rule :: rest) song = false) /\
    (forall (without : Song) (rs : list Rule),
       songProp without (ruleKey rule) = None ->
       (forall r, ruleKey r <> ruleKey rule ->
          songProp without (ruleKey r) = songProp song (ruleKey r)) ->
       songMatches followAll rs song = songMatches followAll rs without).
Proof.
  intros followAll rule song Hempty.
  assert (Hlack : lacks song rule = true)
    by (unfold lacks; rewrite Hempty; reflexivity).
  split; [exact (ruleStep_lacking song followAll rule Hlack)|]. split.
  - intros rest.
    apply (lacking_rule_reached song followAll [] rest rule Hlack).
    intros _. constructor.
  - intros without rs Hnone Hsame. apply songMatches_same_truthy.
    intros r _. destruct (string_dec (ruleKey r) (ruleKey rule)) as [E|N].
    + right. unfold lacks. rewrite E, Hempty, Hnone. split; reflexivity.
    + left. symmetry. apply Hsame. exact N.
Qed.

(** An instance: "Artist is not Queen" in OR mode, on a song whose
    artist is the empty string. *)
Lemma C10_empty_string_as_missing_witness :
  ruleStep false Sample.artistIsNotQueen Sample.blankArtist = Some false /\
  songMatches false [Sample.artistIsNotQueen] Sample.blankArtist = false /\
  songMatches false [Sample.artistIsNotQueen; Sample.titleIsIntro]
    Sample.blankArtist
  = songMatches false [Sample.artistIsNotQueen; Sample.titleIsIntro]
      Sample.untagged.
Proof.
  destruct (C10_empty_string_as_missing false Sample.artistIsNotQueen
              Sample.blankArtist eq_refl) as (Hstep & Hfirst & Hsame).
  split; [exact Hstep|]. split; [exact (Hfirst [])|].
  apply Hsame; [reflexivity|].
  intros [[| | |] cmp d] Hkey; try reflexivity.
  exfalso. apply Hkey. reflexivity.
Defined.

(** ** Record derivation: the title *)

Lemma split_without_dot (s : string) :
  SpecTitle.hasDot s = false -> JS.split JS.DOT s = (s, []).
Proof.
  induction s as [|c rest IH]; simpl; [reflexivity|].
  intros H. apply orb_false_iff in H as [Hc Hrest].
  rewrite (IH Hrest), Hc. reflexivity.
Qed.

Lemma split_pieces_nil (s : string) :
  snd (JS.split JS.DOT s) = [] -> SpecTitle.hasDot s = false.
Proof.
  induction s as [|c rest IH]; simpl; [reflexivity|].
  destruct (JS.split JS.DOT rest) as [piece pieces].
  destruct (Ascii.eqb c JS.DOT); simpl; [discriminate|].
  exact IH.
Qed.

(** The first piece of the split holds no dot: it ends at the first one. *)
Lemma split_head_no_dot (s : string) :
  SpecTitle.hasDot (fst (JS.split JS.DOT s)) = false.
Proof.
  induction s as [|c rest IH]; simpl; [reflexivity|].
  destruct (JS.split JS.DOT rest) as [piece pieces].
  destruct (Ascii.eqb c JS.DOT) eqn:E; simpl; [reflexivity|].
  rewrite E. exact IH.
Qed.

(** With exactly one dot in the name, the first piece of the split is
    the name without its extension. *)
Lemma split_head_is_stem (s ext : string) :
  snd (JS.split JS.DOT s) = [ext] -> fst (JS.split JS.DOT s) = SpecTitle.stem s.
Proof.
  induction s as [|c rest IH]; simpl; [discriminate|].
  destruct (JS.split JS.DOT rest) as [piece pieces] eqn:E.
  destruct (Ascii.eqb c JS.DOT) eqn:Hc; simpl.
  - intros H. injection H as _ Hp. subst pieces.
    rewrite (split_pieces_nil rest) by (rewrite E; reflexivity).
    reflexivity.
  - intros H. rewrite <- (IH H). reflexivity.
Qed.

(** What [formatSongToStorage] stores as the title of a file without a
    tag title: the name up to its first dot, null characters removed. *)
Lemma title_without_tag (doc : DocumentObject) (fetched : Blob) (md : ITags) :
  JS.falsyOpt (tagTitle md) = true ->
  title (formatSongToStorage doc fetched md) =
  JS.removeAll JS.NUL (fst (JS.split JS.DOT (docName doc))).
Proof.
  unfold formatSongToStorage, titleOrName; simpl.
  destruct (tagTitle md) as [t|]; simpl; [|reflexivity].
  intros ->. reflexivity.
Qed.

(** The example of the specification. *)
Example title_of_track07 :
  title (formatSongToStorage (mkDoc "f0" "track07.mp3" 100 None)
           Sample.mp3 Sample.noTags) = "track07".
Proof. reflexivity. Qed.

(** C7: for a name with more than one dot the stored title stops at the
    first dot, whereas the name without its extension runs up to the last
    one: ["my.song.mp3"] is stored under the title ["my"], not
    ["my.song"]. *)
Theorem C7_title_stops_at_first_dot :
  title (formatSongToStorage (mkDoc "f1" "my.song.mp3" 100 None)
           Sample.mp3 Sample.noTags) = "my" /\
  SpecTitle.stem "my.song.mp3" = "my.song".
Proof. split; reflexivity. Qed.

(** C8: the derived title can be empty. The fallback to the file name is
    decided before the null characters are removed, so a tag title made
    of a null character survives the test and is then emptied; and a
    name that starts with a dot gives an empty fallback. *)
Theorem C8_title_can_be_empty :
  title (formatSongToStorage (mkDoc "f2" "song.mp3" 100 None) Sample.mp3
           (mkTags (Some (String JS.NUL "")) None None None None None)) = "" /\
  title (formatSongToStorage (mkDoc "f3" ".mp3" 100 None) Sample.mp3
           Sample.noTags) = "".
Proof. split; reflexivity. Qed.

(** ** The local store and last-writer-wins ingestion *)

Section StoreFacts.

Implicit Types (t : Table) (key : string) (c : SongChanges).

Lemma get_Some_id key t (s : Song) :
  Dexie.get key t = Some s -> id s = key /\ In s t.
Proof.
  unfold Dexie.get. intros H. apply List.find_some in H as [Hin Heq].
  apply String.eqb_eq in Heq. split; assumption.
Qed.


(** A [Song] literal passed to [update] overwrites every property. *)
Lemma modify_changesOf (record stored : Song) :
  Dexie.modify (changesOf record) stored = record.
Proof. destruct record; reflexivity. Qed.

Lemma modify_id key c (s : Song) :
  Dexie.keepsKey key c = true -> id s = key -> id (Dexie.modify c s) = key.
Proof.
  unfold Dexie.keepsKey. intros K E. simpl.
  destruct (ch_id c) as [i|]; simpl; [|exact E].
  apply String.eqb_eq in K. exact K.
Qed.


Lemma get_update_same key c t (stored : Song) :
  Dexie.keepsKey key c = true ->
  Dexie.get key t = Some stored ->
  Dexie.get key (Dexie.update key c t) = Some (Dexie.modify c stored).
Proof.
  intros K. unfold Dexie.update. rewrite K. unfold Dexie.get.
  induction t as [|s t IH]; cbn [List.map List.find]; [discriminate|].
  destruct (String.eqb (id s) key) eqn:E.
  - intros H. injection H as ->. apply String.eqb_eq in E.
    rewrite (modify_id key c stored K E), String.eqb_refl. reflexivity.
  - rewrite E. exact IH.
Qed.

Lemma get_update_other key other c t :
  other <> key ->
  Dexie.get other (Dexie.update key c t) = Dexie.get other t.
Proof.
  intros N. unfold Dexie.update.
  destruct (Dexie.keepsKey key c) eqn:K; [|reflexivity]. unfold Dexie.get.
  induction t as [|s t IH]; cbn [List.map List.find]; [reflexivity|].
  destruct (String.eqb (id s) key) eqn:E.
  - apply String.eqb_eq in E.
    rewrite (modify_id key c s K E), E.
    destruct (String.eqb key other) eqn:E'; [|exact IH].
    apply String.eqb_eq in E'. congruence.
  - destruct (String.eqb (id s) other); [reflexivity | exact IH].
Qed.


Lemma get_add_other (record : Song) other t :
  other <> id record ->
  Dexie.get other (fst (Dexie.add record t)) = Dexie.get other t.
Proof.
  intros N. unfold Dexie.add.
  destruct (Dexie.get (id record) t); simpl; [reflexivity|].
  unfold Dexie.get. induction t as [|s t IH]; simpl.
  - destruct (String.eqb (id record) other) eqn:E; [|reflexivity].
    apply String.eqb_eq in E. congruence.
  - destruct (String.eqb (id s) other); [reflexivity | exact IH].
Qed.

Lemma get_add_new (record : Song) t :
  Dexie.get (id record) t = None ->
  Dexie.get (id record) (fst (Dexie.add record t)) = Some record.
Proof.
  intros G. unfold Dexie.add. rewrite G. simpl. revert G. unfold Dexie.get.
  induction t as [|s t IH]; simpl.
  - rewrite String.eqb_refl. reflexivity.
  - destruct (String.eqb (id s) (id record)); [discriminate | exact IH].
Qed.

End StoreFacts.

Section IngestionFacts.

Variable fetchMedia : string -> option Blob.
Variable parse : list Byte.byte -> option ITags.



(** A failed download or a file without tags leaves the table alone. *)
Lemma handleAddSong_threw (doc : DocumentObject) (t : Table) (m : string) :
  snd (handleAddSong fetchMedia parse doc t) = Threw m ->
  fst (handleAddSong fetchMedia parse doc t) = t.
Proof.
  unfold handleAddSong.
  destruct (upToDate (Dexie.get (docId doc) t) doc); [reflexivity|].
  destruct (fetchMedia (docId doc)) as [fetched|]; [|reflexivity].
  destruct (parse (blobBytes fetched)) as [md|]; [|reflexivity].
  destruct (Dexie.get (docId doc) t); simpl; discriminate.
Qed.

End IngestionFacts.



(** ** Cover image cache *)

Section CoverFacts.

(** A URL that is created and not revoked. *)
Variable h : nat.

Lemma refreshSong_untouched (w : CoverWork) (song : Song) :
  untouched h w -> untouched h (refreshSong w song).
Proof.
  intros (Hold & Hnew & Hlt & Hrev).
  assert (Hkept : forall kept,
            (kept = delete (id song) (songToCover w) \/ kept = songToCover w) ->
            ~ holds kept h).
  { intros kept [->| ->]; [|exact Hold].
    intros (k & e & Hk & He). apply Hold. exists k, e.
    apply lookup_delete_Some in Hk as [_ Hk]. split; assumption. }
  unfold refreshSong.
  set (kept := match songToCover w !! id song with
               | Some e => if lastEditedUtc song >? lastUpdatedUtc e
                           then delete (id song) (songToCover w)
                           else songToCover w
               | None => songToCover w
               end).
  assert (Hk : ~ holds kept h).
  { apply Hkept. subst kept.
    destruct (songToCover w !! id song) as [e|]; [|right; reflexivity].
    destruct (lastEditedUtc song >? lastUpdatedUtc e);
      [left | right]; reflexivity. }
  destruct (kept !! id song), (cover song); simpl;
    try (repeat split; assumption).
  repeat split; try assumption; [|simpl; lia].
  intros (k & e & Hl & He). simpl in Hl.
  apply lookup_insert_Some in Hl as [[_ <-]|[_ Hl]].
  - simpl in He. lia.
  - apply Hnew. exists k, e. split; assumption.
Qed.

Lemma refreshSongs_untouched (songs : list Song) (w : CoverWork) :
  untouched h w -> untouched h (List.fold_left refreshSong songs w).
Proof.
  revert w. induction songs as [|song songs IH]; intros w H; simpl;
    [exact H|].
  apply IH. apply refreshSong_untouched. exact H.
Qed.

Lemma sweep_untouched (known : gmap string Song)
  (items : list (string * CoverEntry))
  (target : gmap string CoverEntry * UrlStore) :
  (forall item, In item items -> entryCover (snd item) <> h) ->
  leaked h (fst target) (snd target) ->
  let swept := List.fold_left (sweepKey known) items target in
  leaked h (fst swept) (snd swept).
Proof.
  revert target. induction items as [|item items IH];
    intros target Hitems Hleak; simpl; [exact Hleak|].
  apply IH; [intros i Hi; apply Hitems; right; exact Hi|].
  destruct Hleak as (Hlt & Hhold & Hrev). unfold sweepKey.
  destruct (known !! fst item); [repeat split; assumption|]. simpl.
  repeat split; [exact Hlt | |].
  - intros (k & e & Hk & He). apply Hhold. exists k, e.
    apply lookup_delete_Some in Hk as [_ Hk]. split; assumption.
  - intros Hin. apply List.in_app_or in Hin as [Hin|[Hin|[]]];
      [exact (Hrev Hin)|].
    apply (Hitems item); [left; reflexivity | exact Hin].
Qed.

(** A leaked URL stays leaked: no later refresh revokes it. *)
Lemma refreshCovers_keeps_leak (songs : option (list Song))
  (cache : gmap string CoverEntry) (u : UrlStore) :
  leaked h cache u ->
  leaked h (fst (refreshCovers songs cache u))
    (snd (refreshCovers songs cache u)).
Proof.
  intros (Hlt & Hhold & Hrev). unfold refreshCovers.
  set (w0 := {| songToCover := cache; newSongToCover := cache;
                coverUrls := u |}).
  assert (H0 : untouched h w0) by (repeat split; assumption).
  pose proof (refreshSongs_untouched (default [] songs) w0 H0)
    as (Hold & Hnew & Hlt' & Hrev').
  apply sweep_untouched; [|repeat split; assumption].
  intros [k e] Hin He. apply Hold. exists k, e. split; [|exact He].
  apply elem_of_map_to_list. apply list_elem_of_In. exact Hin.
Qed.

Lemma refreshAll_keeps_leak (history : list (option (list Song)))
  (cache : gmap string CoverEntry) (u : UrlStore) :
  leaked h cache u ->
  leaked h (fst (refreshAll history cache u))
    (snd (refreshAll history cache u)).
Proof.
  unfold refreshAll. revert cache u.
  induction history as [|songs history IH]; intros cache u H; simpl;
    [exact H|].
  pose proof (refreshCovers_keeps_leak songs cache u H) as H'.
  destruct (refreshCovers songs cache u) as [cache' u']. apply IH. exact H'.
Qed.

End CoverFacts.

(** [songMap] has no entry for [key] exactly when no song has that id. *)
Lemma songMap_gone (songs : list Song) (key : string) :
  songMap (Some songs) !! key = None <-> ~ In key (List.map id songs).
Proof.
  unfold songMap.
  assert (H : forall m : gmap string Song,
            List.fold_left (fun m song => <[id song := song]> m) songs m
              !! key = None
            <-> m !! key = None /\ ~ In key (List.map id songs)).
  { induction songs as [|song songs IH]; intros m; simpl; [tauto|].
    rewrite IH, lookup_insert_None. tauto. }
  rewrite H, lookup_empty. tauto.
Qed.

(** The first loop revokes nothing and only removes entries from
    [songToCover]. *)
Lemma refreshSong_log (w : CoverWork) (song : Song) :
  revokedLog (coverUrls (refreshSong w song)) = revokedLog (coverUrls w) /\
  (forall key e,
     songToCover (refreshSong w song) !! key = Some e ->
     songToCover w !! key = Some e).
Proof.
  unfold refreshSong.
  set (kept := match songToCover w !! id song with
               | Some e => if lastEditedUtc song >? lastUpdatedUtc e
                           then delete (id song) (songToCover w)
                           else songToCover w
               | None => songToCover w
               end).
  assert (Hsub : forall key e,
            kept !! key = Some e -> songToCover w !! key = Some e).
  { intros key e. subst kept.
    destruct (songToCover w !! id song) as [e0|]; [|tauto].
    destruct (lastEditedUtc song >? lastUpdatedUtc e0); [|tauto].
    intros H. apply lookup_delete_Some in H as [_ H]. exact H. }
  destruct (kept !! id song), (cover song); simpl; split;
    solve [reflexivity | exact Hsub].
Qed.

Lemma refreshSongs_log (songs : list Song) (w : CoverWork) :
  revokedLog (coverUrls (List.fold_left refreshSong songs w))
  = revokedLog (coverUrls w) /\
  (forall key e,
     songToCover (List.fold_left refreshSong songs w) !! key = Some e ->
     songToCover w !! key = Some e).
Proof.
  revert w. induction songs as [|song songs IH]; intros w; simpl;
    [split; [reflexivity | tauto]|].
  destruct (IH (refreshSong w song)) as [Hlog Hsub].
  destruct (refreshSong_log w song) as [Hlog1 Hsub1].
  split; [congruence|]. intros key e H. apply Hsub1, Hsub, H.
Qed.

Lemma sweep_log (known : gmap string Song)
  (items : list (string * CoverEntry))
  (target : gmap string CoverEntry * UrlStore) :
  exists extra,
    revokedLog (snd (List.fold_left (sweepKey known) items target))
    = (revokedLog (snd target) ++ extra)%list /\
    Forall (fun h => exists item, In item items /\
                       entryCover (snd item) = h /\ known !! fst item = None)
      extra.
Proof.
  revert target. induction items as [|item items IH]; intros target; simpl.
  - exists []. rewrite List.app_nil_r. split; [reflexivity | constructor].
  - destruct (IH (sweepKey known target item)) as (extra & Hlog & Hall).
    assert (Hweak : Forall
              (fun h => exists it, (item = it \/ In it items) /\
                          entryCover (snd it) = h /\ known !! fst it = None)
              extra).
    { eapply List.Forall_impl; [|exact Hall].
      intros h (it & Hin & He & Hk). exists it. tauto. }
    unfold sweepKey in Hlog |- *.
    destruct (known !! fst item) eqn:Hknown.
    + exists extra. split; assumption.
    + exists (entryCover (snd item) :: extra). simpl in Hlog.
      rewrite Hlog, <- List.app_assoc. split; [reflexivity|].
      constructor; [|exact Hweak]. exists item. tauto.
Qed.

(** What a refresh revokes: only URLs of entries whose song is no longer
    in [allSongs]. The entry of a song that is still there is never
    released, stale or not. *)
Lemma refreshCovers_revokes_only_gone (songs : option (list Song))
  (cache : gmap string CoverEntry) (u : UrlStore) :
  exists extra,
    revokedLog (snd (refreshCovers songs cache u))
    = (revokedLog u ++ extra)%list /\
    Forall (fun h => exists key e, cache !! key = Some e /\
                       entryCover e = h /\ songMap songs !! key = None)
      extra.
Proof.
  unfold refreshCovers.
  set (w0 := {| songToCover := cache; newSongToCover := cache;
                coverUrls := u |}).
  destruct (refreshSongs_log (default [] songs) w0) as [Hlog Hsub].
  set (w := List.fold_left refreshSong (default [] songs) w0) in *.
  destruct (sweep_log (songMap songs) (map_to_list (songToCover w))
              (newSongToCover w, coverUrls w)) as (extra & Hextra & Hall).
  exists extra. simpl in Hextra. rewrite Hextra, Hlog. split; [reflexivity|].
  eapply List.Forall_impl; [|exact Hall].
  intros h ([key e] & Hin & He & Hgone). exists key, e.
  split; [|split; assumption].
  apply (Hsub key e). apply elem_of_map_to_list, list_elem_of_In. exact Hin.
Qed.

(** Deleting a song releases its cover: the sweep revokes the URL and
    drops the entry. *)
Example cover_released_on_deletion :
  refreshCovers
    (Some (Dexie.toArray (Dexie.delete "s1" [Sample.covered100])))
    Sample.cache100 Sample.urls1
  = (∅, mkUrls 1 [0%nat]).
Proof. vm_compute. reflexivity. Qed.

(** C2: a song whose cover is cached under URL 0 is updated with a newer
    [lastEditedUtc] and new cover bytes. The refresh creates URL 1 and
    makes it the current entry, and revokes nothing: URL 0 is dropped
    from the cache without being released, and no later refresh, whatever
    the songs become, releases it. When the update removes the cover
    instead, the stale entry is neither released nor removed. *)
Theorem C2_stale_cover_never_released :
  refreshCovers (Some [Sample.covered150]) Sample.cache100 Sample.urls1
    = ({[ "s1" := mkEntry 1 150 ]}, mkUrls 2 []) /\
  (forall history : list (option (list Song)),
     releases 0
       (snd (refreshAll history {[ "s1" := mkEntry 1 150 ]} (mkUrls 2 [])))
     = 0%nat) /\
  refreshCovers (Some [Sample.bare150]) Sample.cache100 Sample.urls1
    = (Sample.cache100, Sample.urls1).
Proof.
  split; [vm_compute; reflexivity|]. split; [|vm_compute; reflexivity].
  intros history.
  assert (H : leaked 0 {[ "s1" := mkEntry 1 150 ]} (mkUrls 2 [])).
  { repeat split; simpl; [lia | | tauto].
    intros (k & e & Hk & He).
    apply lookup_singleton_Some in Hk as [_ <-]. discriminate He. }
  destruct (refreshAll_keeps_leak 0 history _ _ H) as (_ & _ & Hrev).
  unfold releases. apply List.count_occ_not_In. exact Hrev.
Qed.

(** ** Playback selection *)

Lemma randomIndex_bound (r : Q) (n : nat) :
  (0 <= r)%Q -> (r < 1)%Q -> (0 < n)%nat -> (randomIndex r n < n)%nat.
Proof.
  intros H0 H1 Hn. unfold randomIndex.
  set (x := (r * inject_Z (Z.of_nat n))%Q).
  assert (Hpos : (0 < inject_Z (Z.of_nat n))%Q).
  { change (inject_Z 0 < inject_Z (Z.of_nat n))%Q. rewrite <- Zlt_Qlt. lia. }
  assert (Hx0 : (0 <= x)%Q).
  { unfold x. apply Qmult_le_0_compat; [exact H0 | apply Qlt_le_weak, Hpos]. }
  assert (Hx1 : (x < inject_Z (Z.of_nat n))%Q).
  { unfold x. rewrite <- (Qmult_1_l (inject_Z (Z.of_nat n))) at 2.
    apply Qmult_lt_compat_r; assumption. }
  assert (Hf0 : (0 <= Qfloor x)%Z).
  { change 0%Z with (Qfloor 0). apply Qfloor_resp_le. exact Hx0. }
  assert (Hf1 : (Qfloor x < Z.of_nat n)%Z).
  { rewrite Zlt_Qlt. eapply Qle_lt_trans; [apply Qfloor_le | exact Hx1]. }
  lia.
Qed.

Section PlaybackFacts.

Variable random : nat -> Q.
Variable allSongs : option (list Song).
Variable albums : list Album.
Variable currentAlbum : string.

(** With an empty matching set (or none yet), [playSong] revokes the
    source, shows the notice and returns. *)
Lemma playSong_no_songs (fuel : nat) (song : option Song) (p : Player) :
  filterSongs allSongs (activeAlbum albums currentAlbum) = None \/
  filterSongs allSongs (activeAlbum albums currentAlbum) = Some [] ->
  playSong random allSongs albums currentAlbum fuel song p
  = Some (complain (released p), NoSongs).
Proof.
  intros [H|H]; unfold playSong; rewrite H; reflexivity.
Qed.

(** The loop ends only on a song that is not the current one, when
    there is more than one candidate. *)
Lemma reroll_not_current (filtered : list Song) (current : option Song) :
  (2 <= length filtered)%nat ->
  forall fuel k newSong s k',
    reroll random fuel filtered current k newSong = Some (Some s, k') ->
    isCurrent s current = false.
Proof.
  intros Hlen. induction fuel as [|fuel IH]; intros k newSong s k';
    simpl; [discriminate|].
  destruct (isCurrent newSong current) eqn:Hcur; simpl.
  - assert (E : (1 <? length filtered)%nat = true)
      by (apply Nat.ltb_lt; lia).
    rewrite E. destruct (draw random filtered k) as [s1|]; [|discriminate].
    apply IH.
  - intros H. injection H as <- _. exact Hcur.
Qed.

Lemma playSong_next_not_current (filtered : list Song) (fuel : nat)
  (p p' : Player) (s : Song) :
  filterSongs allSongs (activeAlbum albums currentAlbum) = Some filtered ->
  (2 <= length filtered)%nat ->
  playSong random allSongs albums currentAlbum fuel None p
    = Some (p', Selected s) ->
  isCurrent s (currentSong p) = false /\ currentSong p' = Some s.
Proof.
  intros Hf Hlen. unfold playSong. rewrite Hf.
  destruct filtered as [|s0 rest]; [simpl in Hlen; lia|].
  destruct (draw random (s0 :: rest) (randomCalls (released p))) as [first|];
    [|discriminate].
  destruct (reroll random fuel (s0 :: rest) (currentSong (released p))
              (S (randomCalls (released p))) first)
    as [[[s1|] k]|] eqn:Hloop; try discriminate.
  intros H. injection H as <- <-. split; [|reflexivity].
  exact (reroll_not_current _ _ Hlen _ _ _ _ _ Hloop).
Qed.

Lemma playNext_no_repeat (filtered : list Song) (fuel : nat) :
  filterSongs allSongs (activeAlbum albums currentAlbum) = Some filtered ->
  (2 <= length filtered)%nat ->
  forall n p selected,
    playNext random allSongs albums currentAlbum fuel n p = Some selected ->
    noRepeat (currentSong p) selected.
Proof.
  intros Hf Hlen. induction n as [|n IH]; intros p selected; simpl.
  - intros H. injection H as <-. exact I.
  - destruct (playSong random allSongs albums currentAlbum fuel None p)
      as [[p' [s| |]]|] eqn:Hplay;
      try discriminate.
    destruct (playNext random allSongs albums currentAlbum fuel n p')
      as [rest|] eqn:Hrest; [|discriminate].
    intros H. injection H as <-.
    destruct (playSong_next_not_current _ _ _ _ _ Hf Hlen Hplay) as [Hs Hp'].
    split; [exact Hs|]. rewrite <- Hp'. apply IH. exact Hrest.
Qed.

(** The loop ends as soon as the random source draws a song other than
    the current one. *)
Lemma reroll_ends (filtered : list Song) (current : option Song) :
  (forall k, exists s, draw random filtered k = Some s) ->
  forall j k newSong s',
    draw random filtered (k + j) = Some s' -> isCurrent s' current = false ->
    exists fuel s k',
      reroll random fuel filtered current k newSong = Some (Some s, k').
Proof.
  intros Htotal. induction j as [|j IH]; intros k newSong s' Hdraw Hnot.
  - rewrite Nat.add_0_r in Hdraw. exists 2%nat. simpl.
    destruct (isCurrent newSong current && (1 <? length filtered)%nat);
      [|eauto].
    rewrite Hdraw, Hnot. simpl. eauto.
  - destruct (isCurrent newSong current && (1 <? length filtered)%nat) eqn:C.
    + destruct (Htotal k) as [s1 Hs1].
      replace (k + S j)%nat with (S k + j)%nat in Hdraw by lia.
      destruct (IH (S k) s1 s' Hdraw Hnot) as (fuel & s & k' & Hloop).
      exists (S fuel), s, k'. simpl. rewrite C, Hs1. exact Hloop.
    + exists 1%nat, newSong, k. simpl. rewrite C. reflexivity.
Qed.

Lemma draw_total (filtered : list Song) :
  (forall k, 0 <= random k /\ random k < 1)%Q ->
  (0 < length filtered)%nat ->
  forall k, exists s, draw random filtered k = Some s.
Proof.
  intros Hrange Hlen k. unfold draw.
  destruct (Hrange k) as [H0 H1].
  pose proof (randomIndex_bound (random k) (length filtered) H0 H1 Hlen) as Hi.
  apply lookup_lt_is_Some_2 in Hi as [s Hs]. exists s. exact Hs.
Qed.

Lemma playSong_next_ends (filtered : list Song) (p : Player) :
  filterSongs allSongs (activeAlbum albums currentAlbum) = Some filtered ->
  (0 < length filtered)%nat ->
  (forall k, 0 <= random k /\ random k < 1)%Q ->
  forall j s',
    draw random filtered (randomCalls p + j) = Some s' ->
    isCurrent s' (currentSong p) = false ->
    exists fuel p' s,
      playSong random allSongs albums currentAlbum fuel None p
      = Some (p', Selected s).
Proof.
  intros Hf Hlen Hrange j s' Hdraw Hnot.
  pose proof (draw_total filtered Hrange Hlen) as Htotal.
  destruct filtered as [|s0 rest] eqn:Efiltered; [simpl in Hlen; lia|].
  rewrite <- Efiltered in *.
  assert (Hstep : forall first,
            draw random filtered (randomCalls p) = Some first ->
            (exists fuel s k',
               reroll random fuel filtered (currentSong p)
                 (S (randomCalls p)) first
               = Some (Some s, k')) ->
            exists fuel p' s,
              playSong random allSongs albums currentAlbum fuel None p
              = Some (p', Selected s)).
  { intros first Hfirst (fuel & s & k' & Hloop).
    exists fuel, (load s (drawn k' (released p))), s.
    unfold playSong. rewrite Hf, Efiltered. rewrite <- Efiltered.
    simpl randomCalls. simpl currentSong. rewrite Hfirst, Hloop.
    reflexivity. }
  destruct j as [|j].
  - rewrite Nat.add_0_r in Hdraw. apply (Hstep s' Hdraw).
    exists 1%nat, s', (S (randomCalls p)). simpl. rewrite Hnot. reflexivity.
  - destruct (Htotal (randomCalls p)) as [first Hfirst].
    apply (Hstep first Hfirst).
    apply (reroll_ends filtered (currentSong p) Htotal j _ first s');
      [|exact Hnot].
    replace (S (randomCalls p) + j)%nat with (randomCalls p + S j)%nat by lia.
    exact Hdraw.
Qed.

(** With one candidate the only index is 0 and the loop is not
    entered. *)
Lemma playSong_single (only : Song) (fuel : nat) (p : Player) :
  filterSongs allSongs (activeAlbum albums currentAlbum) = Some [only] ->
  (0 <= random (randomCalls p) /\ random (randomCalls p) < 1)%Q ->
  playSong random allSongs albums currentAlbum (S fuel) None p
  = Some (load only (drawn (S (randomCalls p)) (released p)), Selected only).
Proof.
  intros Hf [H0 H1]. unfold playSong. rewrite Hf.
  unfold draw. simpl randomCalls. simpl length.
  pose proof (randomIndex_bound (random (randomCalls p)) 1 H0 H1 Nat.lt_0_1)
    as Hi.
  assert (E : randomIndex (random (randomCalls p)) 1 = 0%nat) by lia.
  rewrite E. simpl. rewrite andb_false_r. reflexivity.
Qed.

End PlaybackFacts.

(** C5: [untagged] is loaded and playing from the object URL 0, and no
    song matches. [playSong()] shows the notice and keeps [currentSong],
    [audio.src] and the play status, but it has revoked URL 0 on its
    first line, before the test: the media handle of the loaded song is
    released although the song stays loaded. *)
Theorem C5_source_revoked_without_songs :
  forall (random : nat -> Q) (fuel : nat),
    let before := Sample.playing in
    let after := complain (released Sample.playing) in
    playSong random (Some []) [] "" fuel None before = Some (after, NoSongs) /\
    notices after = [Error "There are currently no songs to play"] /\
    currentSong after = currentSong before /\
    audioSrc after = Some 0%nat /\
    audioPlaying after = audioPlaying before /\
    releases 0 (playerUrls before) = 0%nat /\
    releases 0 (playerUrls after) = 1%nat.
Proof.
  intros random fuel before after. repeat split; reflexivity.
Qed.

(** The Next button calls the [playSong] of the latest render, which
    reads the [currentSong] the page shows: with two songs or more in
    scope, the song it selects has not the id of the loaded song. *)
Lemma next_button_differs (random : nat -> Q) (allSongs : option (list Song))
  (albums : list Album) (currentAlbum : string) (filtered : list Song)
  (fuel : nat) (p p' : Player) (loaded s : Song) :
  filterSongs allSongs (activeAlbum albums currentAlbum) = Some filtered ->
  (2 <= length filtered)%nat ->
  currentSong p = Some loaded ->
  playSong random allSongs albums currentAlbum fuel None p
    = Some (p', Selected s) ->
  id s <> id loaded.
Proof.
  intros Hf Hlen Hloaded Hplay.
  destruct (playSong_next_not_current _ _ _ _ filtered _ _ _ _ Hf Hlen Hplay)
    as [Hnot _].
  rewrite Hloaded in Hnot. simpl in Hnot.
  apply String.eqb_neq. exact Hnot.
Qed.

(** C6: auto-advance can select the loaded song again. Two songs are in
    scope and nothing is loaded when the effect on [allSongs] sets
    [audio.onended], so the [playSong] of that handler reads
    [currentSong = null]. The row of [untagged] is clicked and the song
    is loaded. When it ends, the handler draws index 0 with a random
    number 0 and, its test [newSong.id === currentSong?.id] being false
    for the [null] it reads, selects [untagged] again although [other],
    a song with another id, is in scope. *)
Theorem C6_auto_advance_repeats :
  forall fuel : nat,
    let songs := Some [Sample.untagged; Sample.other] in
    let loaded := load Sample.untagged (released Sample.idle) in
    filterSongs songs (activeAlbum [] "")
      = Some [Sample.untagged; Sample.other] /\
    id Sample.other <> id Sample.untagged /\
    (forall k, 0 <= Sample.zeros k /\ Sample.zeros k < 1)%Q /\
    playSong Sample.zeros songs [] "" fuel (Some Sample.untagged) Sample.idle
      = Some (loaded, Selected Sample.untagged) /\
    currentSong loaded = Some Sample.untagged /\
    onended Sample.zeros songs [] "" (currentSong Sample.idle) (S fuel) loaded
      = Some (load Sample.untagged (drawn 1 (released loaded)),
              Selected Sample.untagged).
Proof.
  intros fuel songs loaded.
  split; [reflexivity|]. split; [discriminate|].
  split; [intros k; split; vm_compute; [discriminate | reflexivity]|].
  split; [reflexivity|]. split; reflexivity.
Qed.

(** ** Completion of an ingestion call *)

Lemma firstRejection_rejected (ps : list Promise) (p : Promise) :
  firstRejection ps = Some p -> exists reason, outcome p = Rejected reason.
Proof.
  revert p. induction ps as [|q ps IH]; intros p; simpl; [discriminate|].
  destruct (outcome q) as [|reason] eqn:Hq; [apply IH|].
  destruct (firstRejection ps) as [r|].
  - destruct (settledAt r <? settledAt q)%nat; intros H; injection H as <-;
      [apply IH; reflexivity | eauto].
  - intros H. injection H as <-. eauto.
Qed.

Lemma firstRejection_none (ps : list Promise) :
  firstRejection ps = None -> Forall (fun p => outcome p = Fulfilled) ps.
Proof.
  induction ps as [|q ps IH]; simpl; [constructor|].
  destruct (outcome q) eqn:Hq.
  - intros H. constructor; [exact Hq | exact (IH H)].
  - destruct (firstRejection ps) as [r|]; [|discriminate].
    destruct (settledAt r <? settledAt q)%nat; discriminate.
Qed.

Lemma fold_max_lower (l : list nat) (n : nat) :
  (n <= List.fold_left Nat.max l n)%nat.
Proof.
  revert n. induction l as [|x l IH]; intros n; simpl; [lia|].
  specialize (IH (Nat.max n x)). lia.
Qed.

Lemma fold_max_upper (l : list nat) (n x : nat) :
  In x l -> (x <= List.fold_left Nat.max l n)%nat.
Proof.
  revert n. induction l as [|y l IH]; intros n; simpl; [tauto|].
  intros [->|Hin]; [|apply IH; exact Hin].
  pose proof (fold_max_lower l (Nat.max n x)). lia.
Qed.

(** A fulfilled [Promise.all] settles after each of its promises, all of
    which are fulfilled. *)
Lemma promiseAll_fulfilled (now : nat) (ps : list Promise) :
  outcome (promiseAll now ps) = Fulfilled ->
  Forall (fun p => outcome p = Fulfilled /\
                   (settledAt p <= settledAt (promiseAll now ps))%nat) ps.
Proof.
  unfold promiseAll. destruct (firstRejection ps) as [r|] eqn:Hr.
  - intros H. destruct (firstRejection_rejected ps r Hr) as [reason Hreason].
    congruence.
  - intros _. simpl. apply firstRejection_none in Hr.
    apply List.Forall_forall. intros p Hp. split.
    + exact (proj1 (List.Forall_forall _ ps) Hr p Hp).
    + apply fold_max_upper. apply List.in_map. exact Hp.
Qed.

(** Inside a folder every call is awaited: when [handleAddFolder] (or
    [handleAddSong]) fulfils, all the work done on its behalf has
    settled. *)
Lemma folderCallback_awaits_all :
  forall (item : DriveItem) (now : nat),
    outcome (fst (folderCallback now item)) = Fulfilled ->
    Forall
      (fun p => (settledAt p <= settledAt (fst (folderCallback now item)))%nat)
      (snd (folderCallback now item)).
Proof.
  fix IH 1. intros [took result | took [children|]] now; simpl.
  - intros _. constructor; [simpl; lia | constructor].
  - intros Hall. constructor; [simpl; lia|].
    apply promiseAll_fulfilled in Hall.
    set (top := settledAt
                  (promiseAll (now + took)
                     (List.map fst
                        (List.map (folderCallback (now + took)) children))))
      in *.
    clearbody top. induction children as [|child children IHc]; simpl;
      [constructor|].
    simpl in Hall. inversion Hall as [|? ? [Hchild Hle] Hrest]; subst.
    apply List.Forall_app. split; [|exact (IHc Hrest)].
    eapply List.Forall_impl; [|exact (IH child (now + took)%nat Hchild)].
    simpl. intros p Hp. lia.
  - intros _. constructor; [simpl; lia | constructor].
Qed.

(** A call of [handlePickerChange] shows exactly one notice. *)
Lemma handlePickerChange_one_notice (data : list DriveItem) :
  length (shown (handlePickerChange data)) = 1%nat.
Proof.
  unfold handlePickerChange. simpl.
  destruct (outcome _); reflexivity.
Qed.

(** A rejection settles [Promise.all] at once: with files only, the
    failure notice can come before a sibling download has settled. *)
Example rejection_completes_early :
  handlePickerChange [DriveFile 3 Fulfilled; DriveFile 1 (Rejected "fetch")]
    = {| completedAt := 1;
         shown := [Error "fetch"];
         spawned := [mkPromise 3 Fulfilled; mkPromise 1 (Rejected "fetch")] |}.
Proof. reflexivity. Qed.

(** C9: a folder is picked whose listing takes one tick and holds one
    file that takes one more. [handlePickerChange] completes at instant 0
    with the success notice, whereas the work it spawned settles at
    instant 2: the promise of [handleAddFolder] is not awaited at the top
    level (inside a folder it is, see [folderCallback_awaits_all]). For the
    same reason a folder whose listing is rejected still ends in the
    success notice. *)
Theorem C9_picked_folder_not_awaited :
  handlePickerChange [DriveFolder 1 (Some [DriveFile 1 Fulfilled])]
    = {| completedAt := 0;
         shown := [Notify "Songs uploaded and updated"];
         spawned := [mkPromise 2 Fulfilled; mkPromise 2 Fulfilled] |} /\
  handlePickerChange [DriveFolder 1 None]
    = {| completedAt := 0;
         shown := [Notify "Songs uploaded and updated"];
         spawned := [mkPromise 1 (Rejected "files.list")] |}.
Proof. split; reflexivity. Qed.

(** * Further properties *)

(** ** JavaScript string primitives *)

Lemma startsWith_prefix (s p : string) :
  JS.startsWith s p = true <-> exists post, s = (p ++ post)%string.
Proof.
  revert s. induction p as [|a p IH]; intros s; simpl.
  - split; [intros _; exists s; reflexivity | destruct s; reflexivity].
  - destruct s as [|b s];
      [split; [discriminate | intros [post H]; discriminate]|].
    simpl. rewrite andb_true_iff, Ascii.eqb_eq, IH. split.
    + intros [-> [post ->]]. exists post. reflexivity.
    + intros [post H]. injection H as -> ->. split; [reflexivity | eauto].
Qed.

(** [includes] is substring containment. *)
Lemma includes_substring (s sub : string) :
  JS.includes s sub = true <->
  exists pre post, s = (pre ++ sub ++ post)%string.
Proof.
  induction s as [|c s IH].
  - change (JS.includes EmptyString sub)
      with (JS.startsWith EmptyString sub || false).
    rewrite orb_false_r, startsWith_prefix. split.
    + intros [post H]. exists EmptyString, post. exact H.
    + intros ([|c pre] & post & H); [exists post; exact H | discriminate].
  - change (JS.includes (String c s) sub)
      with (JS.startsWith (String c s) sub || JS.includes s sub).
    rewrite orb_true_iff, startsWith_prefix, IH. split.
    + intros [[post H]|(pre & post & ->)].
      * exists EmptyString, post. exact H.
      * exists (String c pre), post. reflexivity.
    + intros ([|d pre] & post & H).
      * left. exists post. exact H.
      * right. injection H as -> ->. exists pre, post. reflexivity.
Qed.

Lemma lowerChar_idempotent (c : ascii) :
  JS.lowerChar (JS.lowerChar c) = JS.lowerChar c.
Proof.
  destruct c as [[|] [|] [|] [|] [|] [|] [|] [|]]; vm_compute; reflexivity.
Qed.

Lemma toLowerCase_idempotent (s : string) :
  JS.toLowerCase (JS.toLowerCase s) = JS.toLowerCase s.
Proof.
  induction s as [|c s IH]; simpl; [reflexivity|].
  rewrite lowerChar_idempotent, IH. reflexivity.
Qed.

Lemma toLowerCase_app (a b : string) :
  JS.toLowerCase (a ++ b)%string
  = (JS.toLowerCase a ++ JS.toLowerCase b)%string.
Proof.
  induction a as [|c a IH]; simpl; [reflexivity|]. rewrite IH. reflexivity.
Qed.

(** ** Smart playlist filter, by mode *)

Lemma ruleFails_negates (rule : Rule) (attr : string) :
  ruleFails rule attr = negb (ruleHolds rule attr).
Proof.
  unfold ruleFails, ruleHolds. destruct (comparison rule);
    try reflexivity; rewrite negb_involutive; reflexivity.
Qed.

Lemma ruleHolds_negated (rule : Rule) (attr : string) :
  ruleHolds (negated rule) attr = negb (ruleHolds rule attr).
Proof.
  unfold ruleHolds, negated. simpl. destruct (comparison rule); simpl;
    try reflexivity; rewrite negb_involutive; reflexivity.
Qed.

Lemma ruleStep_and_cases (rule : Rule) (song : Song) :
  ruleStep true rule song
  = if ruleAccepts rule song then None else Some false.
Proof.
  unfold ruleStep, ruleAccepts.
  destruct (songProp song (ruleKey rule)) as [a|]; [|reflexivity].
  destruct (JS.falsy a); simpl; [reflexivity|].
  rewrite ruleFails_negates. destruct (ruleHolds rule a); reflexivity.
Qed.

Lemma ruleStep_or_cases (rule : Rule) (song : Song) :
  ruleStep false rule song
  = if lacks song rule then Some false
    else if ruleAccepts rule song then Some true else None.
Proof.
  unfold ruleStep, ruleAccepts, lacks.
  destruct (songProp song (ruleKey rule)) as [a|]; [|reflexivity]. simpl.
  destruct (JS.falsy a); simpl; [reflexivity|].
  destruct (ruleHolds rule a); reflexivity.
Qed.

Lemma ruleAccepts_not_lacking (rule : Rule) (song : Song) :
  ruleAccepts rule song = true -> lacks song rule = false.
Proof.
  unfold ruleAccepts, lacks.
  destruct (songProp song (ruleKey rule)) as [a|]; [|discriminate]. simpl.
  destruct (JS.falsy a); [discriminate | reflexivity].
Qed.

(** X1: with [followAllRules] the filter keeps a song exactly when every
    rule holds of it, each on an attribute the song has: the verdict is
    the conjunction of the rules, whatever their order. *)
Theorem X1_and_mode_is_conjunction :
  forall (rs : list Rule) (song : Song),
    songMatches true rs song = forallb (fun r => ruleAccepts r song) rs.
Proof.
  intros rs song. induction rs as [|r rs IH]; simpl; [reflexivity|].
  rewrite ruleStep_and_cases.
  destruct (ruleAccepts r song); simpl; [exact IH | reflexivity].
Qed.

(** X2: without [followAllRules] the filter keeps a song exactly when
    some rule holds of it and the song has the attribute of every rule
    that stands before that rule in the list. *)
Theorem X2_or_mode_first_match :
  forall (rs : list Rule) (song : Song),
    songMatches false rs song = true <->
    exists pre rule post,
      rs = (pre ++ rule :: post)%list /\
      Forall (fun r => lacks song r = false) pre /\
      ruleAccepts rule song = true.
Proof.
  intros rs song. induction rs as [|r rs IH]; simpl.
  - split; [discriminate|]. intros ([|? ?] & rule & post & H & _); discriminate.
  - rewrite ruleStep_or_cases.
    destruct (lacks song r) eqn:Hlack.
    + split; [discriminate|].
      intros ([|q pre] & rule & post & H & Hpre & Hacc); injection H as -> ->.
      * apply ruleAccepts_not_lacking in Hacc. congruence.
      * inversion Hpre; congruence.
    + destruct (ruleAccepts r song) eqn:Hacc.
      * split; [|reflexivity]. intros _.
        exists [], r, rs. repeat split; [constructor | exact Hacc].
      * rewrite IH. split.
        -- intros (pre & rule & post & -> & Hpre & Hrule).
           exists (r :: pre), rule, post.
           repeat split; [constructor; assumption | exact Hrule].
        -- intros ([|q pre] & rule & post & H & Hpre & Hrule);
             injection H as -> ->; [congruence|].
           exists pre, rule, post. inversion Hpre; subst.
           repeat split; assumption.
Qed.

Lemma single_rule_verdict (followAll : bool) (rule : Rule) (song : Song) :
  songMatches followAll [rule] song = ruleAccepts rule song.
Proof.
  simpl. destruct followAll.
  - rewrite ruleStep_and_cases. destruct (ruleAccepts rule song); reflexivity.
  - rewrite ruleStep_or_cases. destruct (ruleAccepts rule song) eqn:Hacc.
    + rewrite (ruleAccepts_not_lacking _ _ Hacc). reflexivity.
    + destruct (lacks song rule); reflexivity.
Qed.

(** X3: for an album with a single rule the mode makes no difference:
    with or without [followAllRules] the song is kept exactly when it
    has the attribute and the comparison holds. *)
Theorem X3_single_rule_mode_irrelevant :
  forall (rule : Rule) (song : Song),
    songMatches true [rule] song = songMatches false [rule] song /\
    songMatches false [rule] song = ruleAccepts rule song.
Proof.
  intros rule song. rewrite !single_rule_verdict. split; reflexivity.
Qed.

(** X4: a rule and its negation ("is" / "is not", "includes" / "does not
    include", on the same attribute and data) split the songs that have
    the attribute: each such song is kept by exactly one of the two
    single-rule albums. A song that lacks the attribute is kept by
    neither. *)
Theorem X4_rule_and_negation :
  forall (followAll : bool) (rule : Rule) (song : Song),
    (lacks song rule = false ->
       songMatches followAll [negated rule] song
       = negb (songMatches followAll [rule] song)) /\
    (lacks song rule = true ->
       songMatches followAll [rule] song = false /\
       songMatches followAll [negated rule] song = false).
Proof.
  intros followAll rule song.
  rewrite !single_rule_verdict. unfold lacks, ruleAccepts.
  change (ruleKey (negated rule)) with (ruleKey rule).
  destruct (songProp song (ruleKey rule)) as [a|]; simpl.
  - rewrite ruleHolds_negated. destruct (JS.falsy a); simpl; split;
      intros H; try discriminate; try reflexivity; split; reflexivity.
  - split; [discriminate | split; reflexivity].
Qed.

(** An instance of X4: "Artist is Queen" and "Artist is not Queen" on a
    song by Queen and on a song without artist. *)
Lemma X4_rule_and_negation_witness :
  songMatches false [negated Sample.artistIsQueen] Sample.stored100
  = negb (songMatches false [Sample.artistIsQueen] Sample.stored100) /\
  songMatches false [Sample.artistIsQueen] Sample.untagged = false /\
  songMatches false [negated Sample.artistIsQueen] Sample.untagged = false.
Proof.
  split.
  - apply (proj1 (X4_rule_and_negation false Sample.artistIsQueen
                    Sample.stored100)).
    reflexivity.
  - apply (proj2 (X4_rule_and_negation false Sample.artistIsQueen
                    Sample.untagged)).
    reflexivity.
Defined.

(** ** The search box *)

(** X5: the search keeps every song when the box is empty. For
    queries of ASCII characters it does not depend on the case of what
    is typed, and in a title of ASCII characters it finds any fragment
    of the title, typed in any case. *)
Theorem X5_search_by_title :
  forall (toLowerCase : string -> string) (searchQuery : string)
         (song : Song),
    lowersAscii toLowerCase ->
    searchMatches toLowerCase "" song = true /\
    (forall typed,
       isAscii searchQuery = true -> isAscii typed = true ->
       JS.toLowerCase typed = JS.toLowerCase searchQuery ->
       searchMatches toLowerCase typed song
       = searchMatches toLowerCase searchQuery song) /\
    (forall pre fragment post,
       isAscii (title song) = true -> isAscii searchQuery = true ->
       title song = (pre ++ fragment ++ post)%string ->
       JS.toLowerCase fragment = JS.toLowerCase searchQuery ->
       searchMatches toLowerCase searchQuery song = true).
Proof.
  intros toLowerCase searchQuery song Hlower. unfold searchMatches.
  split; [|split].
  - rewrite (Hlower "" eq_refl). apply includes_substring.
    exists EmptyString, (toLowerCase (title song)). reflexivity.
  - intros typed Hquery Htyped Hcase.
    rewrite (Hlower typed Htyped), (Hlower searchQuery Hquery), Hcase.
    reflexivity.
  - intros pre fragment post Htitle Hquery Hsplit Hcase.
    rewrite (Hlower (title song) Htitle), (Hlower searchQuery Hquery).
    apply includes_substring.
    exists (JS.toLowerCase pre), (JS.toLowerCase post).
    rewrite Hsplit, !toLowerCase_app, Hcase. reflexivity.
Qed.

(** An instance of X5: typing "TR" finds the song titled "Intro". *)
Lemma X5_search_by_title_witness :
  searchMatches JS.toLowerCase "TR" Sample.untagged = true.
Proof.
  apply (proj2 (proj2 (X5_search_by_title JS.toLowerCase "TR" Sample.untagged
                         (fun s _ => eq_refl)))
           "In" "tr" "o"); reflexivity.
Defined.

(** ** Record derivation: null characters *)

Lemma removeAll_removes (c : ascii) (s : string) :
  ~ In c (list_ascii_of_string (JS.removeAll c s)).
Proof.
  induction s as [|d s IH]; simpl; [tauto|].
  destruct (Ascii.eqb d c) eqn:E; [exact IH|]. simpl.
  intros [H|H]; [|exact (IH H)].
  apply Ascii.eqb_neq in E. congruence.
Qed.

Lemma removeAll_without (c : ascii) (s : string) :
  ~ In c (list_ascii_of_string s) -> JS.removeAll c s = s.
Proof.
  induction s as [|d s IH]; simpl; [reflexivity|]. intros H.
  destruct (Ascii.eqb d c) eqn:E.
  - apply Ascii.eqb_eq in E. tauto.
  - rewrite IH by tauto. reflexivity.
Qed.

Lemma stripNul_removes (v : option string) (s : string) :
  stripNul v = Some s -> ~ In JS.NUL (list_ascii_of_string s).
Proof.
  destruct v as [x|]; simpl; [|discriminate].
  intros H. injection H as <-. apply removeAll_removes.
Qed.

Lemma stripNul_without (s : string) :
  ~ In JS.NUL (list_ascii_of_string s) -> stripNul (Some s) = Some s.
Proof. intros H. simpl. rewrite removeAll_without by exact H. reflexivity. Qed.

(** X6: no string stored by [formatSongToStorage] (title, artist, album,
    genre, year) holds a null character; and a tag that holds none is
    stored as it is (for the title: when it is not empty). *)
Theorem X6_no_null_character_stored :
  forall (doc : DocumentObject) (fetched : Blob) (metaData : ITags),
    let record := formatSongToStorage doc fetched metaData in
    ~ In JS.NUL (list_ascii_of_string (title record)) /\
    (forall v,
       artist record = Some v \/ album record = Some v \/
       genre record = Some v \/ year record = Some v ->
       ~ In JS.NUL (list_ascii_of_string v)) /\
    (forall v,
       ~ In JS.NUL (list_ascii_of_string v) ->
       (tagTitle metaData = Some v -> v <> EmptyString -> title record = v) /\
       (tagArtist metaData = Some v -> artist record = Some v) /\
       (tagAlbum metaData = Some v -> album record = Some v) /\
       (tagGenre metaData = Some v -> genre record = Some v) /\
       (tagYear metaData = Some v -> year record = Some v)).
Proof.
  intros doc fetched metaData record. subst record. simpl.
  split; [apply removeAll_removes|]. split.
  - intros v [H|[H|[H|H]]]; exact (stripNul_removes _ _ H).
  - intros v Hv. repeat split.
    + intros Ht Hne. unfold titleOrName. rewrite Ht.
      destruct v; [congruence|]. simpl JS.falsy. cbv iota.
      apply removeAll_without. exact Hv.
    + intros ->. apply stripNul_without, Hv.
    + intros ->. apply stripNul_without, Hv.
    + intros ->. apply stripNul_without, Hv.
    + intros ->. apply stripNul_without, Hv.
Qed.

(** An instance of X6: the genre tag "Rock" followed by a null character
    is stored as "Rock", and the title tag "Outro" as it is. *)
Lemma X6_no_null_character_stored_witness :
  genre (formatSongToStorage Sample2.docNew Sample.newBlob Sample2.paddedTags)
    = Some "Rock" /\
  title (formatSongToStorage Sample2.docNew Sample.newBlob Sample2.paddedTags)
    = "Outro".
Proof.
  destruct (X6_no_null_character_stored Sample2.docNew Sample.newBlob
              Sample2.paddedTags) as (_ & _ & Hkept).
  split; [reflexivity|].
  assert (Hclean : ~ In JS.NUL (list_ascii_of_string "Outro")).
  { simpl. intros H. repeat destruct H as [H|H]; try discriminate H. exact H. }
  apply (proj1 (Hkept "Outro" Hclean)); [reflexivity | discriminate].
Defined.

(** ** Ingestion: what is stored under every id *)

Section UpsertFacts.

Variable fetchMedia : string -> option Blob.
Variable parse : list Byte.byte -> option ITags.

(** After [handleAddSong] the table answers [upserted] under the id of
    the document and what it answered before under every other id. *)
Lemma get_handleAddSong (doc : DocumentObject) (t : Table) (key : string) :
  Dexie.get key (fst (handleAddSong fetchMedia parse doc t))
  = if String.eqb key (docId doc)
    then upserted fetchMedia parse doc (Dexie.get (docId doc) t)
    else Dexie.get key t.
Proof.
  assert (Hsame : forall x : option Song,
            x = Dexie.get (docId doc) t ->
            Dexie.get key t
            = if String.eqb key (docId doc) then x else Dexie.get key t).
  { intros x ->. destruct (String.eqb key (docId doc)) eqn:E; [|reflexivity].
    apply String.eqb_eq in E. subst key. reflexivity. }
  unfold handleAddSong, upserted.
  destruct (upToDate (Dexie.get (docId doc) t) doc);
    [apply Hsame; reflexivity|].
  destruct (fetchMedia (docId doc)) as [fetched|]; [|apply Hsame; reflexivity].
  destruct (parse (blobBytes fetched)) as [metaData|];
    [|apply Hsame; reflexivity].
  set (record := formatSongToStorage doc fetched metaData).
  destruct (String.eqb key (docId doc)) eqn:E.
  - apply String.eqb_eq in E. subst key.
    destruct (Dexie.get (docId doc) t) as [stored|] eqn:G; simpl.
    + rewrite (get_update_same _ _ _ stored);
        [|apply String.eqb_refl | exact G].
      rewrite modify_changesOf. reflexivity.
    + apply (get_add_new record). exact G.
  - apply String.eqb_neq in E.
    destruct (Dexie.get (docId doc) t) as [stored|] eqn:G; simpl.
    + apply get_update_other. exact E.
    + apply (get_add_other record). exact E.
Qed.

(** A document whose download or parse fails, or that is up to date,
    leaves the table as it is. *)
Lemma handleAddSong_settled (doc : DocumentObject) (t : Table) :
  upserted fetchMedia parse doc (Dexie.get (docId doc) t)
    = Dexie.get (docId doc) t ->
  fst (handleAddSong fetchMedia parse doc t) = t.
Proof.
  unfold handleAddSong, upserted.
  destruct (upToDate (Dexie.get (docId doc) t) doc) eqn:U; [reflexivity|].
  destruct (fetchMedia (docId doc)) as [fetched|]; [|reflexivity].
  destruct (parse (blobBytes fetched)) as [metaData|]; [|reflexivity].
  destruct (Dexie.get (docId doc) t) as [stored|]; [|discriminate].
  intros H. injection H as H. exfalso.
  unfold upToDate in U. rewrite <- H in U. simpl in U.
  rewrite Z.geb_leb, Z.leb_refl in U. discriminate.
Qed.

Lemma upserted_kept (doc : DocumentObject) (x : option Song) :
  upToDate x doc = true \/ fetchMedia (docId doc) = None \/
  (exists fetched, fetchMedia (docId doc) = Some fetched /\
                   parse (blobBytes fetched) = None) ->
  upserted fetchMedia parse doc x = x.
Proof.
  unfold upserted. intros [U|[F|(fetched & F & P)]].
  - rewrite U. reflexivity.
  - rewrite F. destruct (upToDate x doc); reflexivity.
  - rewrite F, P. destruct (upToDate x doc); reflexivity.
Qed.

Lemma upserted_written (doc : DocumentObject) (x : option Song)
  (fetched : Blob) (metaData : ITags) :
  upToDate x doc = false ->
  fetchMedia (docId doc) = Some fetched ->
  parse (blobBytes fetched) = Some metaData ->
  upserted fetchMedia parse doc x
  = Some (formatSongToStorage doc fetched metaData).
Proof. unfold upserted. intros -> -> ->. reflexivity. Qed.

Lemma upToDate_own_record (doc : DocumentObject) (fetched : Blob)
  (metaData : ITags) :
  upToDate (Some (formatSongToStorage doc fetched metaData)) doc = true.
Proof. unfold upToDate. simpl. apply Z.geb_le. lia. Qed.

(** A document is settled when ingesting it changes nothing: it is up to
    date, or its download or its parse fails. *)
Lemma upserted_settled (doc : DocumentObject) (x : option Song) :
  upserted fetchMedia parse doc x = x <->
  (upToDate x doc = true \/ fetchMedia (docId doc) = None \/
   (exists fetched, fetchMedia (docId doc) = Some fetched /\
                    parse (blobBytes fetched) = None)).
Proof.
  split; [|apply upserted_kept].
  destruct (upToDate x doc) eqn:U; [tauto|].
  destruct (fetchMedia (docId doc)) as [fetched|] eqn:F; [|tauto].
  destruct (parse (blobBytes fetched)) as [metaData|] eqn:P; [|eauto 6].
  rewrite (upserted_written doc x fetched metaData U F P). intros H.
  rewrite <- H, upToDate_own_record in U. discriminate.
Qed.

(** Ingesting a document a second time finds nothing to do. *)
Lemma upserted_idempotent (doc : DocumentObject) (x : option Song) :
  upserted fetchMedia parse doc (upserted fetchMedia parse doc x)
  = upserted fetchMedia parse doc x.
Proof.
  destruct (upToDate x doc) eqn:U;
    [rewrite !(upserted_kept doc x) by tauto; reflexivity|].
  destruct (fetchMedia (docId doc)) as [fetched|] eqn:F;
    [|apply upserted_kept; tauto].
  destruct (parse (blobBytes fetched)) as [metaData|] eqn:P;
    [|apply upserted_kept; eauto 6].
  apply upserted_kept. left.
  rewrite (upserted_written doc x fetched metaData U F P).
  apply upToDate_own_record.
Qed.

(** The version stored under an id never goes back: what is up to date
    for a document stays so after any ingestion under the same id. *)
Lemma upToDate_stable (doc other : DocumentObject) (x : option Song) :
  upToDate x doc = true ->
  upToDate (upserted fetchMedia parse other x) doc = true.
Proof.
  intros Ud. unfold upserted.
  destruct (upToDate x other) eqn:Uo; [exact Ud|].
  destruct (fetchMedia (docId other)) as [fetched|]; [|exact Ud].
  destruct (parse (blobBytes fetched)) as [metaData|]; [|exact Ud].
  destruct x as [stored|]; [|discriminate]. unfold upToDate in *. simpl.
  apply Z.geb_le. apply Z.geb_le in Ud.
  rewrite Z.geb_leb in Uo. apply Z.leb_gt in Uo. lia.
Qed.

(** Once a document is settled it stays settled, whatever is ingested
    afterwards under its id. *)
Lemma upserted_settled_stable (doc other : DocumentObject) (x : option Song) :
  docId other = docId doc ->
  upserted fetchMedia parse doc x = x ->
  upserted fetchMedia parse doc (upserted fetchMedia parse other x)
  = upserted fetchMedia parse other x.
Proof.
  intros Hid H. apply upserted_settled in H. apply upserted_kept.
  destruct H as [U|H]; [left; apply upToDate_stable; exact U | right; exact H].
Qed.

End UpsertFacts.

Section BatchFacts.

Variable fetchMedia : string -> option Blob.
Variable parse : list Byte.byte -> option ITags.

Lemma ingestAll_cons (doc : DocumentObject) (docs : list DocumentObject)
  (t : Table) :
  ingestAll fetchMedia parse (doc :: docs) t
  = ingestAll fetchMedia parse docs
      (fst (handleAddSong fetchMedia parse doc t)).
Proof. reflexivity. Qed.

Lemma ingestAll_app (docs1 docs2 : list DocumentObject) (t : Table) :
  ingestAll fetchMedia parse (docs1 ++ docs2) t
  = ingestAll fetchMedia parse docs2 (ingestAll fetchMedia parse docs1 t).
Proof. unfold ingestAll. apply List.fold_left_app. Qed.

Lemma settled_after_own (doc : DocumentObject) (t : Table) :
  settled fetchMedia parse doc (fst (handleAddSong fetchMedia parse doc t)).
Proof.
  unfold settled. rewrite get_handleAddSong, String.eqb_refl.
  apply upserted_idempotent.
Qed.

Lemma settled_after_other (doc other : DocumentObject) (t : Table) :
  settled fetchMedia parse doc t ->
  settled fetchMedia parse doc (fst (handleAddSong fetchMedia parse other t)).
Proof.
  unfold settled. intros H. rewrite get_handleAddSong.
  destruct (String.eqb (docId doc) (docId other)) eqn:E; [|exact H].
  apply String.eqb_eq in E. rewrite <- E.
  apply upserted_settled_stable; [symmetry; exact E | exact H].
Qed.

Lemma settled_after_all (doc : DocumentObject) (docs : list DocumentObject)
  (t : Table) :
  settled fetchMedia parse doc t ->
  settled fetchMedia parse doc (ingestAll fetchMedia parse docs t).
Proof.
  revert t. induction docs as [|d docs IH]; intros t H; [exact H|].
  rewrite ingestAll_cons. apply IH, settled_after_other, H.
Qed.

Lemma ingestAll_settles (docs : list DocumentObject) (t : Table) :
  Forall
    (fun doc =>
       settled fetchMedia parse doc (ingestAll fetchMedia parse docs t))
    docs.
Proof.
  revert t. induction docs as [|d docs IH]; intros t; [constructor|].
  rewrite ingestAll_cons. constructor; [|apply IH].
  apply settled_after_all, settled_after_own.
Qed.

Lemma ingestAll_of_settled (docs : list DocumentObject) (t : Table) :
  Forall (fun doc => settled fetchMedia parse doc t) docs ->
  ingestAll fetchMedia parse docs t = t.
Proof.
  induction docs as [|d docs IH]; intros H; [reflexivity|].
  inversion H as [|? ? Hd Hrest]; subst.
  rewrite ingestAll_cons, handleAddSong_settled by exact Hd.
  apply IH, Hrest.
Qed.

Lemma ingestAll_idempotent (docs : list DocumentObject) (t : Table) :
  ingestAll fetchMedia parse docs (ingestAll fetchMedia parse docs t)
  = ingestAll fetchMedia parse docs t.
Proof. apply ingestAll_of_settled, ingestAll_settles. Qed.

(** Two ingestions under the same id, of different versions, end in the
    same record whichever comes first. *)
Lemma upserted_commute (a b : DocumentObject) (x : option Song) :
  docId a = docId b ->
  docLastEditedUtc a <> docLastEditedUtc b ->
  upserted fetchMedia parse b (upserted fetchMedia parse a x)
  = upserted fetchMedia parse a (upserted fetchMedia parse b x).
Proof.
  intros Hid Hts. unfold upserted. rewrite Hid.
  destruct (fetchMedia (docId b)) as [fetched|].
  2:{ repeat match goal with
             | |- context [if ?c then _ else _] => destruct c
             end; reflexivity. }
  destruct (parse (blobBytes fetched)) as [metaData|].
  2:{ repeat match goal with
             | |- context [if ?c then _ else _] => destruct c
             end; reflexivity. }
  unfold upToDate. destruct x as [stored|]; simpl; rewrite ?Z.geb_leb;
    repeat match goal with
           | |- context [(?m <=? ?n)] =>
               destruct (Z.leb_spec m n); simpl; rewrite ?Z.geb_leb
           end;
    try reflexivity; exfalso; lia.
Qed.

Lemma ingest_two_commute (a b : DocumentObject) (t : Table) (key : string) :
  docId a <> docId b \/ docLastEditedUtc a <> docLastEditedUtc b ->
  Dexie.get key (ingestAll fetchMedia parse [a; b] t)
  = Dexie.get key (ingestAll fetchMedia parse [b; a] t).
Proof.
  intros H. unfold ingestAll. cbn [List.fold_left].
  rewrite !get_handleAddSong.
  destruct (String.eqb_spec (docId a) (docId b)) as [E|N].
  - destruct H as [H|H]; [contradiction|].
    rewrite <- E, String.eqb_refl.
    destruct (String.eqb key (docId a)); [|reflexivity].
    rewrite (upserted_commute a b _ E H).
    unfold upserted. rewrite E. reflexivity.
  - assert (N' : String.eqb (docId b) (docId a) = false)
      by (apply String.eqb_neq; congruence).
    rewrite N'.
    destruct (String.eqb_spec key (docId b)) as [Eb|Nb];
      destruct (String.eqb_spec key (docId a)) as [Ea|Na];
      try reflexivity.
    congruence.
Qed.

End BatchFacts.

(** X7: ingesting a document whose id is not stored, when the download
    and the parse succeed: the call returns, the derived record is
    appended to the table and is what [get] answers under the id, and
    every other id answers as before. *)
Theorem X7_new_document_is_inserted :
  forall (fetchMedia : string -> option Blob)
         (parse : list Byte.byte -> option ITags)
         (doc : DocumentObject) (t : Table)
         (fetched : Blob) (metaData : ITags),
    Dexie.get (docId doc) t = None ->
    fetchMedia (docId doc) = Some fetched ->
    parse (blobBytes fetched) = Some metaData ->
    let record := formatSongToStorage doc fetched metaData in
    let t' := fst (handleAddSong fetchMedia parse doc t) in
    handleAddSong fetchMedia parse doc t = ((t ++ [record])%list, Returned) /\
    Dexie.get (docId doc) t' = Some record /\
    (forall other,
       other <> docId doc -> Dexie.get other t' = Dexie.get other t).
Proof.
  intros fetchMedia parse doc t fetched metaData Hnew Hfetch Hparse record t'.
  assert (Hrun : handleAddSong fetchMedia parse doc t
                 = ((t ++ [record])%list, Returned)).
  { unfold handleAddSong. rewrite Hnew, Hfetch, Hparse. simpl.
    unfold Dexie.add. simpl. rewrite Hnew. reflexivity. }
  split; [exact Hrun|]. subst t'. split.
  - rewrite get_handleAddSong, String.eqb_refl, Hnew.
    apply upserted_written; [reflexivity | assumption..].
  - intros other N. rewrite get_handleAddSong.
    apply String.eqb_neq in N. rewrite N. reflexivity.
Qed.

(** An instance of X7: a second document is ingested next to the stored
    one. *)
Lemma X7_new_document_is_inserted_witness :
  Dexie.get "s2"
    (fst (handleAddSong Sample.fetchMedia Sample.parse Sample2.docNew
            [Sample.stored100]))
  = Some (formatSongToStorage Sample2.docNew Sample.newBlob Sample.newTags) /\
  Dexie.get "s1"
    (fst (handleAddSong Sample.fetchMedia Sample.parse Sample2.docNew
            [Sample.stored100]))
  = Some Sample.stored100.
Proof.
  destruct (X7_new_document_is_inserted Sample.fetchMedia Sample.parse
              Sample2.docNew [Sample.stored100] Sample.newBlob Sample.newTags
              eq_refl eq_refl eq_refl) as (_ & Hget & Hother).
  split; [exact Hget|]. rewrite (Hother "s1"); [reflexivity | discriminate].
Defined.

(** X8: a document whose download fails, or in whose bytes the parser
    finds no tags, changes nothing in the table, and a batch stores what
    it stores without that document. *)
Theorem X8_failed_document_is_isolated :
  forall (fetchMedia : string -> option Blob)
         (parse : list Byte.byte -> option ITags)
         (before after : list DocumentObject) (bad : DocumentObject)
         (t : Table),
    fetchMedia (docId bad) = None \/
    (exists fetched, fetchMedia (docId bad) = Some fetched /\
                     parse (blobBytes fetched) = None) ->
    fst (handleAddSong fetchMedia parse bad t) = t /\
    ingestAll fetchMedia parse (before ++ bad :: after) t
    = ingestAll fetchMedia parse (before ++ after) t.
Proof.
  intros fetchMedia parse before after bad t Hbad.
  assert (Hkept : forall t0, fst (handleAddSong fetchMedia parse bad t0) = t0).
  { intros t0. apply handleAddSong_settled, upserted_kept. tauto. }
  split; [apply Hkept|].
  rewrite !ingestAll_app, ingestAll_cons, Hkept. reflexivity.
Qed.

(** An instance of X8: the download of the second of three documents
    fails. *)
Lemma X8_failed_document_is_isolated_witness :
  ingestAll Sample2.fetchButLost Sample.parse
    ([Sample.doc150] ++ Sample2.docLost :: [Sample2.docNew]) [Sample.stored100]
  = ingestAll Sample2.fetchButLost Sample.parse
      ([Sample.doc150] ++ [Sample2.docNew]) [Sample.stored100].
Proof.
  apply (X8_failed_document_is_isolated Sample2.fetchButLost Sample.parse).
  left. reflexivity.
Defined.

(** X9: ingesting a batch again, with the same answers of the download
    and of the parser, changes nothing: the table after the second pass
    is the table after the first. *)
Theorem X9_reingestion_is_idempotent :
  forall (fetchMedia : string -> option Blob)
         (parse : list Byte.byte -> option ITags)
         (docs : list DocumentObject) (t : Table),
    ingestAll fetchMedia parse docs (ingestAll fetchMedia parse docs t)
    = ingestAll fetchMedia parse docs t.
Proof. intros. apply ingestAll_idempotent. Qed.

(** X10: two documents with different ids, or with the same id and
    different modification times, leave the same record under every id
    whichever of the two is ingested first. *)
Theorem X10_ingestion_order_is_irrelevant :
  forall (fetchMedia : string -> option Blob)
         (parse : list Byte.byte -> option ITags)
         (a b : DocumentObject) (t : Table) (key : string),
    docId a <> docId b \/ docLastEditedUtc a <> docLastEditedUtc b ->
    Dexie.get key (ingestAll fetchMedia parse [a; b] t)
    = Dexie.get key (ingestAll fetchMedia parse [b; a] t).
Proof. intros. apply ingest_two_commute. assumption. Qed.

(** An instance of X10: the two versions of the stored document, newer
    first or older first. *)
Lemma X10_ingestion_order_is_irrelevant_witness :
  Dexie.get "s1"
    (ingestAll Sample.fetchMedia Sample.parse [Sample.doc50; Sample.doc150]
       [Sample.stored100])
  = Dexie.get "s1"
      (ingestAll Sample.fetchMedia Sample.parse [Sample.doc150; Sample.doc50]
         [Sample.stored100]).
Proof.
  apply (X10_ingestion_order_is_irrelevant Sample.fetchMedia Sample.parse).
  right. discriminate.
Defined.

(** ** Editing and deleting a song *)

Lemma get_delete_same (key : string) (t : Table) :
  Dexie.get key (Dexie.delete key t) = None.
Proof.
  unfold Dexie.get, Dexie.delete. induction t as [|s t IH]; simpl;
    [reflexivity|].
  destruct (String.eqb (id s) key) eqn:E; simpl; [exact IH|].
  rewrite E. exact IH.
Qed.

Lemma get_delete_other (key other : string) (t : Table) :
  other <> key -> Dexie.get other (Dexie.delete key t) = Dexie.get other t.
Proof.
  intros N. unfold Dexie.get, Dexie.delete.
  induction t as [|s t IH]; simpl; [reflexivity|].
  destruct (String.eqb (id s) key) eqn:E; simpl.
  - apply String.eqb_eq in E.
    destruct (String.eqb_spec (id s) other) as [E'|_]; [congruence | exact IH].
  - destruct (String.eqb (id s) other); [reflexivity | exact IH].
Qed.

Lemma orEmpty_same_truthy (v : option string) :
  Some (orEmpty v) = v \/
  (JS.falsyOpt (Some (orEmpty v)) = true /\ JS.falsyOpt v = true).
Proof. destruct v; [left | right; split]; reflexivity. Qed.

(** The record after the form, opened on it, is submitted as it is. *)
Lemma modify_unchanged_form (song : Song) :
  Dexie.modify (editChanges (openEditSong song)) song
  = {| id := id song;
       blob := blob song;
       lastEditedUtc := lastEditedUtc song;
       title := title song;
       artist := Some (orEmpty (artist song));
       album := Some (orEmpty (album song));
       genre := Some (orEmpty (genre song));
       year := year song;
       cover := cover song |}.
Proof. reflexivity. Qed.

Lemma unchanged_form_same_truthy (song : Song) (rule : Rule) :
  let edited := Dexie.modify (editChanges (openEditSong song)) song in
  songProp edited (ruleKey rule) = songProp song (ruleKey rule) \/
  (lacks edited rule = true /\ lacks song rule = true).
Proof.
  intros edited. subst edited. rewrite modify_unchanged_form.
  unfold lacks, ruleKey.
  destruct rule as [[| | |] cmp d]; simpl.
  - left. reflexivity.
  - apply orEmpty_same_truthy.
  - apply orEmpty_same_truthy.
  - apply orEmpty_same_truthy.
Qed.

(** X11: opening the edit form of a stored song and submitting it as it
    is writes empty strings where the song had no album, artist or
    genre, and nothing else: the id, the blob, the modification time,
    the title, the year and the cover are kept, the other records are
    untouched, and the song is kept or dropped by every album, and found
    by every search, exactly as before. *)
Theorem X11_unchanged_edit_is_harmless :
  forall (t : Table) (song : Song),
    Dexie.get (id song) t = Some song ->
    let t' := submitEditSong (openEditSong song) t in
    exists edited,
      Dexie.get (id song) t' = Some edited /\
      (id edited, blob edited, lastEditedUtc edited, title edited,
       year edited, cover edited)
      = (id song, blob song, lastEditedUtc song, title song,
         year song, cover song) /\
      artist edited = Some (orEmpty (artist song)) /\
      album edited = Some (orEmpty (album song)) /\
      genre edited = Some (orEmpty (genre song)) /\
      (forall followAll rs,
         songMatches followAll rs edited = songMatches followAll rs song) /\
      (forall toLowerCase searchQuery,
         searchMatches toLowerCase searchQuery edited
         = searchMatches toLowerCase searchQuery song) /\
      (forall other,
         other <> id song -> Dexie.get other t' = Dexie.get other t).
Proof.
  intros t song Hget t'. subst t'.
  exists (Dexie.modify (editChanges (openEditSong song)) song).
  split; [|split; [|split; [|split; [|split; [|split; [|split]]]]]];
    try reflexivity.
  - unfold submitEditSong. apply get_update_same; [|exact Hget].
    apply String.eqb_refl.
  - intros followAll rs. apply songMatches_same_truthy.
    intros rule _. apply unchanged_form_same_truthy.
  - intros other N. unfold submitEditSong. apply get_update_other. exact N.
Qed.

(** An instance of X11 on a table that holds a song without tags. *)
Lemma X11_unchanged_edit_is_harmless_witness :
  exists edited,
    Dexie.get "s1" (submitEditSong (openEditSong Sample.untagged)
                      [Sample.untagged]) = Some edited /\
    artist edited = Some "" /\
    songMatches false [Sample.artistIsNotQueen] edited
    = songMatches false [Sample.artistIsNotQueen] Sample.untagged.
Proof.
  destruct (X11_unchanged_edit_is_harmless [Sample.untagged] Sample.untagged
              eq_refl)
    as (edited & Hget & _ & Hartist & _ & _ & Hfilter & _).
  exists edited. split; [exact Hget|]. split; [exact Hartist|].
  apply Hfilter.
Defined.

(** X12: an edit keeps the modification time of the record, so the
    edited fields survive the ingestion of the same or of an older
    version of the document: that ingestion returns without touching the
    table. *)
Theorem X12_edit_survives_reingestion :
  forall (fetchMedia : string -> option Blob)
         (parse : list Byte.byte -> option ITags)
         (form : EditSongForm) (t : Table) (stored : Song)
         (doc : DocumentObject),
    Dexie.get (form_id form) t = Some stored ->
    docId doc = form_id form ->
    docLastEditedUtc doc <= lastEditedUtc stored ->
    let t' := submitEditSong form t in
    handleAddSong fetchMedia parse doc t' = (t', Returned) /\
    exists edited,
      Dexie.get (form_id form) t' = Some edited /\
      title edited = form_title form /\
      artist edited = Some (form_artist form) /\
      album edited = Some (form_album form) /\
      genre edited = Some (form_genre form) /\
      lastEditedUtc edited = lastEditedUtc stored.
Proof.
  intros fetchMedia parse form t stored doc Hget Hid Hts t'. subst t'.
  assert (Hedited : Dexie.get (form_id form) (submitEditSong form t)
                    = Some (Dexie.modify (editChanges form) stored)).
  { unfold submitEditSong. apply get_update_same; [|exact Hget].
    apply String.eqb_refl. }
  split.
  - unfold handleAddSong. rewrite Hid, Hedited. unfold upToDate. simpl.
    assert (E : (lastEditedUtc stored >=? docLastEditedUtc doc) = true)
      by (apply Z.geb_le; lia).
    rewrite E. reflexivity.
  - exists (Dexie.modify (editChanges form) stored).
    split; [exact Hedited|]. repeat split.
Qed.

(** An instance of X12: the title of the stored song is edited, then the
    document is ingested again in its stored version. *)
Lemma X12_edit_survives_reingestion_witness :
  let form := mkEditSongForm "s1" "" "Prelude" "Queen" "" in
  handleAddSong Sample.fetchMedia Sample.parse
    (mkDoc "s1" "intro.mp3" 100 None) (submitEditSong form [Sample.stored100])
  = (submitEditSong form [Sample.stored100], Returned).
Proof.
  intros form.
  apply (X12_edit_survives_reingestion Sample.fetchMedia Sample.parse form
           [Sample.stored100] Sample.stored100
           (mkDoc "s1" "intro.mp3" 100 None)).
  - reflexivity.
  - reflexivity.
  - simpl. lia.
Defined.

(** X13: after a song is deleted its id answers nothing and every other
    id answers as before; and ingesting its document again stores the
    derived record anew whatever its modification time, even one older
    than that of the deleted record. *)
Theorem X13_deleted_song_can_come_back :
  forall (fetchMedia : string -> option Blob)
         (parse : list Byte.byte -> option ITags)
         (doc : DocumentObject) (t : Table)
         (fetched : Blob) (metaData : ITags),
    fetchMedia (docId doc) = Some fetched ->
    parse (blobBytes fetched) = Some metaData ->
    let deleted := Dexie.delete (docId doc) t in
    let t' := fst (handleAddSong fetchMedia parse doc deleted) in
    Dexie.get (docId doc) deleted = None /\
    Dexie.get (docId doc) t'
      = Some (formatSongToStorage doc fetched metaData) /\
    (forall other,
       other <> docId doc ->
       Dexie.get other deleted = Dexie.get other t /\
       Dexie.get other t' = Dexie.get other t).
Proof.
  intros fetchMedia parse doc t fetched metaData Hfetch Hparse deleted t'.
  subst t' deleted. split; [apply get_delete_same|]. split.
  - rewrite get_handleAddSong, String.eqb_refl, get_delete_same.
    apply upserted_written; [reflexivity | assumption..].
  - intros other N. split; [apply get_delete_other; exact N|].
    rewrite get_handleAddSong.
    assert (E : String.eqb other (docId doc) = false)
      by (apply String.eqb_neq; exact N).
    rewrite E. apply get_delete_other. exact N.
Qed.

(** An instance of X13: the stored song is deleted and its older version
    is ingested. *)
Lemma X13_deleted_song_can_come_back_witness :
  Dexie.get "s1"
    (fst (handleAddSong Sample.fetchMedia Sample.parse Sample.doc50
            (Dexie.delete "s1" [Sample.stored100])))
  = Some (formatSongToStorage Sample.doc50 Sample.newBlob Sample.newTags).
Proof.
  apply (X13_deleted_song_can_come_back Sample.fetchMedia Sample.parse
           Sample.doc50 [Sample.stored100] Sample.newBlob Sample.newTags);
    reflexivity.
Defined.

(** ** Cover image cache: what a refresh keeps *)

(** One iteration of the first loop, by cases: the entries kept in
    [songToCover], and whether a URL is created. *)
Lemma refreshSong_shape (w : CoverWork) (song : Song) :
  exists kept,
    (forall key, key <> id song -> kept !! key = songToCover w !! key) /\
    (kept !! id song = None \/
     exists e, songToCover w !! id song = Some e /\
               kept !! id song = Some e /\
               lastEditedUtc song <= lastUpdatedUtc e) /\
    ((kept !! id song = None /\ cover song <> None /\
      refreshSong w song
      = {| songToCover := kept;
           newSongToCover :=
             <[id song := mkEntry (issued (coverUrls w)) (lastEditedUtc song)]>
               (newSongToCover w);
           coverUrls := {| issued := S (issued (coverUrls w));
                           revokedLog := revokedLog (coverUrls w) |} |}) \/
     ((kept !! id song <> None \/ cover song = None) /\
      refreshSong w song
      = {| songToCover := kept;
           newSongToCover := newSongToCover w;
           coverUrls := coverUrls w |})).
Proof.
  unfold refreshSong.
  set (kept := match songToCover w !! id song with
               | Some e => if lastEditedUtc song >? lastUpdatedUtc e
                           then delete (id song) (songToCover w)
                           else songToCover w
               | None => songToCover w
               end).
  exists kept. split; [|split].
  - intros key N. subst kept.
    destruct (songToCover w !! id song) as [e|]; [|reflexivity].
    destruct (lastEditedUtc song >? lastUpdatedUtc e); [|reflexivity].
    apply lookup_delete_ne. congruence.
  - subst kept. destruct (songToCover w !! id song) as [e|] eqn:E;
      [|left; exact E].
    destruct (lastEditedUtc song >? lastUpdatedUtc e) eqn:S.
    + left. apply lookup_delete_eq.
    + right. exists e. repeat split; [exact E|].
      rewrite Z.gtb_ltb in S. apply Z.ltb_ge in S. exact S.
  - destruct (kept !! id song) as [e|] eqn:K.
    + right. split; [left; discriminate|].
      destruct (cover song); reflexivity.
    + destruct (cover song) as [c|] eqn:C.
      * left. repeat split. discriminate.
      * right. split; [right; reflexivity | reflexivity].
Qed.

Lemma refreshSong_other (w : CoverWork) (song : Song) (key : string) :
  key <> id song ->
  songToCover (refreshSong w song) !! key = songToCover w !! key /\
  newSongToCover (refreshSong w song) !! key = newSongToCover w !! key.
Proof.
  intros N. destruct (refreshSong_shape w song)
    as (kept & Hother & _ & [(_ & _ & ->)|(_ & ->)]); simpl.
  - split; [apply Hother, N|]. apply lookup_insert_ne. congruence.
  - split; [apply Hother, N | reflexivity].
Qed.

Lemma refreshSong_issued (w : CoverWork) (song : Song) :
  (issued (coverUrls w) <= issued (coverUrls (refreshSong w song)))%nat.
Proof.
  destruct (refreshSong_shape w song)
    as (kept & _ & _ & [(_ & _ & ->)|(_ & ->)]); simpl; lia.
Qed.

(** An entry of [newSongToCover] after an iteration was there before, or
    holds a URL created by the iteration. *)
Lemma refreshSong_new_from (w : CoverWork) (song : Song) (key : string)
  (e : CoverEntry) :
  newSongToCover (refreshSong w song) !! key = Some e ->
  newSongToCover w !! key = Some e \/
  (issued (coverUrls w) <= entryCover e)%nat.
Proof.
  destruct (refreshSong_shape w song)
    as (kept & _ & _ & [(_ & _ & ->)|(_ & ->)]); simpl; [|tauto].
  intros H. apply lookup_insert_Some in H as [[_ <-]|[_ H]]; [|tauto].
  right. simpl. lia.
Qed.

Lemma refreshSong_inStep (w : CoverWork) (song : Song) :
  inStep w -> inStep (refreshSong w song).
Proof.
  intros (Hsub & Hlt & Hinj).
  destruct (refreshSong_shape w song)
    as (kept & Hother & Hown & [(Hnone & _ & ->)|(_ & ->)]);
    unfold inStep; simpl.
  - assert (Hkept : forall key e, kept !! key = Some e ->
              key <> id song /\ newSongToCover w !! key = Some e).
    { intros key e H. destruct (decide (key = id song)) as [->|N];
        [congruence|].
      split; [exact N|]. apply Hsub. rewrite <- Hother; assumption. }
    repeat split.
    + intros key e H. destruct (Hkept key e H) as [N Hnew].
      rewrite lookup_insert_ne by congruence. exact Hnew.
    + intros key e H.
      apply lookup_insert_Some in H as [[_ <-]|[_ H]]; simpl; [lia|].
      specialize (Hlt key e H). lia.
    + intros k1 k2 e1 e2 H1 H2 He.
      apply lookup_insert_Some in H1 as [[<- <-]|[N1 H1]];
        apply lookup_insert_Some in H2 as [[<- <-]|[N2 H2]].
      * reflexivity.
      * specialize (Hlt k2 e2 H2). simpl in He. lia.
      * specialize (Hlt k1 e1 H1). simpl in He. lia.
      * exact (Hinj k1 k2 e1 e2 H1 H2 He).
  - repeat split; [|exact Hlt | exact Hinj].
    intros key e H. apply Hsub.
    destruct (decide (key = id song)) as [->|N].
    + destruct Hown as [Hnone|(e' & Hold & Hkept & _)]; congruence.
    + rewrite <- Hother; assumption.
Qed.

(** The entries left in [songToCover] stay entries of
    [newSongToCover]. *)
Lemma refreshSong_sub (w : CoverWork) (song : Song) :
  (forall key e, songToCover w !! key = Some e ->
     newSongToCover w !! key = Some e) ->
  forall key e, songToCover (refreshSong w song) !! key = Some e ->
    newSongToCover (refreshSong w song) !! key = Some e.
Proof.
  intros Hsub.
  destruct (refreshSong_shape w song)
    as (kept & Hother & Hown & [(Hnone & _ & ->)|(_ & ->)]); simpl;
    intros key e H.
  - destruct (decide (key = id song)) as [->|N]; [congruence|].
    rewrite lookup_insert_ne by congruence.
    apply Hsub. rewrite <- Hother; assumption.
  - apply Hsub. destruct (decide (key = id song)) as [->|N].
    + destruct Hown as [Hnone|(e' & Hold & Hkept & _)]; congruence.
    + rewrite <- Hother; assumption.
Qed.

(** After the iteration on a song with a cover, [newSongToCover] holds
    an entry for it that is not older than the song. *)
Lemma refreshSong_own (w : CoverWork) (song : Song) :
  (forall key e, songToCover w !! key = Some e ->
     newSongToCover w !! key = Some e) ->
  cover song <> None ->
  exists e, newSongToCover (refreshSong w song) !! id song = Some e /\
            lastEditedUtc song <= lastUpdatedUtc e.
Proof.
  intros Hsub Hcover.
  destruct (refreshSong_shape w song)
    as (kept & _ & Hown & [(_ & _ & ->)|([Hsome|Hnone] & ->)]); simpl.
  - eexists. split; [apply lookup_insert_eq | simpl; lia].
  - destruct Hown as [Hnone|(e & Hold & _ & Hts)]; [contradiction|].
    exists e. split; [apply Hsub, Hold | exact Hts].
  - contradiction.
Qed.

Lemma refreshSongs_other (songs : list Song) (w : CoverWork) (key : string) :
  ~ In key (List.map id songs) ->
  songToCover (List.fold_left refreshSong songs w) !! key
    = songToCover w !! key /\
  newSongToCover (List.fold_left refreshSong songs w) !! key
    = newSongToCover w !! key.
Proof.
  revert w. induction songs as [|song rest IH]; intros w H; simpl;
    [split; reflexivity|].
  simpl in H. destruct (IH (refreshSong w song)) as [Ho Hn]; [tauto|].
  destruct (refreshSong_other w song key) as [Ho' Hn']; [intros ->; tauto|].
  split; congruence.
Qed.

Lemma refreshSongs_inStep (songs : list Song) (w : CoverWork) :
  inStep w -> inStep (List.fold_left refreshSong songs w).
Proof.
  revert w. induction songs as [|song rest IH]; intros w H; simpl;
    [exact H|].
  apply IH, refreshSong_inStep, H.
Qed.

Lemma refreshSongs_issued (songs : list Song) (w : CoverWork) :
  (issued (coverUrls w)
   <= issued (coverUrls (List.fold_left refreshSong songs w)))%nat.
Proof.
  revert w. induction songs as [|song rest IH]; intros w; simpl; [lia|].
  specialize (IH (refreshSong w song)).
  pose proof (refreshSong_issued w song). lia.
Qed.

Lemma refreshSongs_new_from (songs : list Song) (w : CoverWork) (key : string)
  (e : CoverEntry) :
  newSongToCover (List.fold_left refreshSong songs w) !! key = Some e ->
  newSongToCover w !! key = Some e \/
  (issued (coverUrls w) <= entryCover e)%nat.
Proof.
  revert w. induction songs as [|song rest IH]; intros w H; simpl in H;
    [tauto|].
  destruct (IH _ H) as [H'|H'].
  - apply (refreshSong_new_from w song). exact H'.
  - right. pose proof (refreshSong_issued w song). simpl in H'. lia.
Qed.

(** With distinct ids, every song with a cover ends the loop with an
    entry that is not older than the song. *)
Lemma refreshSongs_own (songs : list Song) (w : CoverWork) (song : Song) :
  List.NoDup (List.map id songs) ->
  (forall key e, songToCover w !! key = Some e ->
     newSongToCover w !! key = Some e) ->
  In song songs -> cover song <> None ->
  exists e,
    newSongToCover (List.fold_left refreshSong songs w) !! id song = Some e /\
    lastEditedUtc song <= lastUpdatedUtc e.
Proof.
  revert w. induction songs as [|first rest IH]; intros w Hnd Hw Hin Hcover;
    [destruct Hin|].
  simpl in Hnd. inversion Hnd as [|? ? Hfresh Hnd']; subst. simpl.
  destruct Hin as [->|Hin].
  - destruct (refreshSong_own w song Hw Hcover) as (e & He & Hts).
    exists e. split; [|exact Hts].
    rewrite (proj2 (refreshSongs_other rest (refreshSong w song) (id song)
                      Hfresh)).
    exact He.
  - apply IH; [exact Hnd' | apply refreshSong_sub, Hw | exact Hin
              | exact Hcover].
Qed.

(** *** The sweep *)

Lemma sweepKey_sub (known : gmap string Song)
  (target : gmap string CoverEntry * UrlStore) (item : string * CoverEntry)
  (key : string) (e : CoverEntry) :
  fst (sweepKey known target item) !! key = Some e ->
  fst target !! key = Some e.
Proof.
  unfold sweepKey. destruct (known !! fst item); simpl; [tauto|].
  intros H. apply lookup_delete_Some in H as [_ H]. exact H.
Qed.

Lemma sweep_sub (known : gmap string Song)
  (items : list (string * CoverEntry))
  (target : gmap string CoverEntry * UrlStore) (key : string)
  (e : CoverEntry) :
  fst (List.fold_left (sweepKey known) items target) !! key = Some e ->
  fst target !! key = Some e.
Proof.
  revert target. induction items as [|item items IH]; intros target H;
    simpl in H; [exact H|].
  apply (sweepKey_sub known target item), IH, H.
Qed.

Lemma sweep_removed (known : gmap string Song)
  (items : list (string * CoverEntry))
  (target : gmap string CoverEntry * UrlStore) (key : string) :
  In key (List.map fst items) -> known !! key = None ->
  fst (List.fold_left (sweepKey known) items target) !! key = None.
Proof.
  revert target. induction items as [|item items IH]; intros target Hin Hgone;
    simpl in *; [destruct Hin|].
  destruct Hin as [<-|Hin]; [|apply IH; assumption].
  destruct (fst (List.fold_left (sweepKey known) items
                   (sweepKey known target item)) !! fst item)
    as [e|] eqn:E; [|reflexivity].
  apply sweep_sub in E. unfold sweepKey in E. rewrite Hgone in E.
  simpl in E. rewrite lookup_delete_eq in E. discriminate.
Qed.

Lemma sweep_kept (known : gmap string Song)
  (items : list (string * CoverEntry))
  (target : gmap string CoverEntry * UrlStore) (key : string) :
  known !! key <> None \/ ~ In key (List.map fst items) ->
  fst (List.fold_left (sweepKey known) items target) !! key
  = fst target !! key.
Proof.
  revert target. induction items as [|item items IH]; intros target H;
    simpl; [reflexivity|].
  rewrite IH by (simpl in H; tauto). unfold sweepKey.
  destruct (known !! fst item) eqn:K; [reflexivity|]. simpl.
  apply lookup_delete_ne. intros E. subst key. simpl in H. tauto.
Qed.

Lemma sweep_issued (known : gmap string Song)
  (items : list (string * CoverEntry))
  (target : gmap string CoverEntry * UrlStore) :
  issued (snd (List.fold_left (sweepKey known) items target))
  = issued (snd target).
Proof.
  revert target. induction items as [|item items IH]; intros target; simpl;
    [reflexivity|].
  rewrite IH. unfold sweepKey. destruct (known !! fst item); reflexivity.
Qed.

(** The sweep revokes, in order, the URLs of the items whose song is not
    known. *)
Lemma sweep_revoked (known : gmap string Song)
  (items : list (string * CoverEntry))
  (target : gmap string CoverEntry * UrlStore) :
  revokedLog (snd (List.fold_left (sweepKey known) items target))
  = (revokedLog (snd target)
     ++ List.map (fun item => entryCover (snd item))
          (List.filter
             (fun item => match known !! fst item with
                          | None => true
                          | Some _ => false
                          end) items))%list.
Proof.
  revert target. induction items as [|item items IH]; intros target; simpl.
  - rewrite List.app_nil_r. reflexivity.
  - rewrite IH. unfold sweepKey.
    destruct (known !! fst item); simpl; [reflexivity|].
    rewrite <- List.app_assoc. reflexivity.
Qed.

(** An id without a song has no entry after a refresh. *)
Lemma refreshCovers_forgets (allSongs : option (list Song))
  (cache : gmap string CoverEntry) (u : UrlStore) (key : string) :
  songMap allSongs !! key = None ->
  fst (refreshCovers allSongs cache u) !! key = None.
Proof.
  intros Hgone.
  assert (Hfresh : ~ In key (List.map id (default [] allSongs))).
  { destruct allSongs as [songs|]; simpl; [|tauto].
    apply songMap_gone. exact Hgone. }
  unfold refreshCovers.
  set (w0 := {| songToCover := cache; newSongToCover := cache;
                coverUrls := u |}).
  destruct (refreshSongs_other (default [] allSongs) w0 key Hfresh)
    as [Hold Hnew].
  set (w := List.fold_left refreshSong (default [] allSongs) w0) in *.
  destruct (cache !! key) as [e|] eqn:C.
  - apply sweep_removed; [|exact Hgone].
    apply List.in_map_iff. exists (key, e). split; [reflexivity|].
    apply list_elem_of_In, elem_of_map_to_list. rewrite Hold. exact C.
  - destruct (fst (List.fold_left (sweepKey (songMap allSongs))
                     (map_to_list (songToCover w))
                     (newSongToCover w, coverUrls w)) !! key)
      as [e|] eqn:E; [|reflexivity].
    apply sweep_sub in E. simpl in E. rewrite Hnew in E. simpl in E.
    congruence.
Qed.

(** X14: after a refresh the cache has no entry under an id that no
    song of the collection has. *)
Theorem X14_cache_follows_the_collection :
  forall (songs : list Song) (cache : gmap string CoverEntry) (u : UrlStore)
         (key : string) (e : CoverEntry),
    fst (refreshCovers (Some songs) cache u) !! key = Some e ->
    In key (List.map id songs).
Proof.
  intros songs cache u key e H.
  destruct (List.in_dec string_dec key (List.map id songs)) as [Hin|Hout];
    [exact Hin|].
  apply songMap_gone in Hout.
  rewrite (refreshCovers_forgets (Some songs) cache u key Hout) in H.
  discriminate.
Qed.

(** An instance of X14: the refresh after the update of the sample
    song. *)
Lemma X14_cache_follows_the_collection_witness :
  In "s1" (List.map id [Sample.covered150]).
Proof.
  apply (X14_cache_follows_the_collection [Sample.covered150]
           Sample.cache100 Sample.urls1 "s1" (mkEntry 1 150)).
  vm_compute. reflexivity.
Defined.

Lemma inStep_start (cache : gmap string CoverEntry) (u : UrlStore) :
  coherent cache u ->
  inStep {| songToCover := cache; newSongToCover := cache; coverUrls := u |}.
Proof.
  intros (Hheld & Hinj & _ & _). unfold inStep. simpl.
  repeat split; [tauto | intros key e H; apply (Hheld key e H) | exact Hinj].
Qed.

Lemma inStep_start_weak (cache : gmap string CoverEntry) (u : UrlStore) :
  forall key e,
    songToCover {| songToCover := cache; newSongToCover := cache;
                   coverUrls := u |} !! key = Some e ->
    newSongToCover {| songToCover := cache; newSongToCover := cache;
                      coverUrls := u |} !! key = Some e.
Proof. intros key e H. exact H. Qed.

Lemma member_known (songs : list Song) (song : Song) :
  In song songs -> songMap (Some songs) !! id song <> None.
Proof.
  intros Hin Hnone. apply songMap_gone in Hnone. apply Hnone.
  apply List.in_map. exact Hin.
Qed.

(** X15: after a refresh over songs with distinct ids, every song that
    has a cover has an entry in the cache, and that entry is not older
    than the song. *)
Theorem X15_every_cover_gets_an_entry :
  forall (songs : list Song) (cache : gmap string CoverEntry) (u : UrlStore)
         (song : Song),
    List.NoDup (List.map id songs) ->
    In song songs ->
    cover song <> None ->
    exists e,
      fst (refreshCovers (Some songs) cache u) !! id song = Some e /\
      lastEditedUtc song <= lastUpdatedUtc e.
Proof.
  intros songs cache u song Hnd Hin Hcover. unfold refreshCovers. simpl.
  set (w0 := {| songToCover := cache; newSongToCover := cache;
                coverUrls := u |}).
  destruct (refreshSongs_own songs w0 song Hnd (inStep_start_weak cache u)
              Hin Hcover) as (e & He & Hts).
  exists e. split; [|exact Hts].
  rewrite sweep_kept; [exact He|]. left. apply member_known. exact Hin.
Qed.

(** An instance of X15: the sample song after its cover has changed. *)
Lemma X15_every_cover_gets_an_entry_witness :
  exists e,
    fst (refreshCovers (Some [Sample.covered150]) Sample.cache100 Sample.urls1)
      !! "s1" = Some e /\
    150 <= lastUpdatedUtc e.
Proof.
  apply (X15_every_cover_gets_an_entry [Sample.covered150] Sample.cache100
           Sample.urls1 Sample.covered150).
  - simpl. repeat constructor. simpl. tauto.
  - left. reflexivity.
  - discriminate.
Defined.

(** *** Coherence of the cache with the URL registry *)

Section Coherence.

Variable allSongs : option (list Song).
Variable cache : gmap string CoverEntry.
Variable u : UrlStore.
Hypothesis Hco : coherent cache u.

Lemma swept_item (item : string * CoverEntry) :
  In item (map_to_list (songToCover (firstLoop allSongs cache u))) ->
  songToCover (firstLoop allSongs cache u) !! fst item = Some (snd item) /\
  newSongToCover (firstLoop allSongs cache u) !! fst item = Some (snd item) /\
  cache !! fst item = Some (snd item) /\
  (entryCover (snd item) < issued (coverUrls (firstLoop allSongs cache u)))%nat.
Proof.
  intros Hin. destruct item as [key e]. simpl.
  apply list_elem_of_In, elem_of_map_to_list in Hin.
  destruct (refreshSongs_inStep (default [] allSongs) _
              (inStep_start cache u Hco)) as (Hsub & Hlt & _).
  fold (firstLoop allSongs cache u) in Hsub, Hlt.
  repeat split; [exact Hin | apply Hsub, Hin | | apply (Hlt key), Hsub, Hin].
  apply (proj2 (refreshSongs_log (default [] allSongs) _) key e Hin).
Qed.

Lemma revoked_by_sweep (h : nat) :
  In h (List.map (fun item : string * CoverEntry => entryCover (snd item))
          (List.filter
             (fun item : string * CoverEntry =>
                match songMap allSongs !! fst item with
                | None => true
                | Some _ => false
                end)
             (map_to_list (songToCover (firstLoop allSongs cache u))))) ->
  exists key e,
    In (key, e) (map_to_list (songToCover (firstLoop allSongs cache u))) /\
    songMap allSongs !! key = None /\ entryCover e = h.
Proof.
  intros H. apply List.in_map_iff in H as ([key e] & He & H).
  apply List.filter_In in H as [Hin Hgone]. simpl in *.
  exists key, e. repeat split; [exact Hin | | exact He].
  destruct (songMap allSongs !! key); [discriminate | reflexivity].
Qed.

Lemma refreshCovers_coherent :
  coherent (fst (refreshCovers allSongs cache u))
    (snd (refreshCovers allSongs cache u)).
Proof.
  destruct (refreshSongs_inStep (default [] allSongs) _
              (inStep_start cache u Hco)) as (Hsub & Hlt & Hinj).
  pose proof (refreshSongs_issued (default [] allSongs)
                {| songToCover := cache; newSongToCover := cache;
                   coverUrls := u |}) as Hissued.
  pose proof (proj1 (refreshSongs_log (default [] allSongs)
                {| songToCover := cache; newSongToCover := cache;
                   coverUrls := u |})) as Hlog.
  pose proof (refreshSongs_new_from (default [] allSongs)
                {| songToCover := cache; newSongToCover := cache;
                   coverUrls := u |}) as Hfrom.
  fold (firstLoop allSongs cache u) in Hsub, Hlt, Hinj, Hissued, Hlog, Hfrom.
  simpl in Hissued, Hlog, Hfrom.
  destruct Hco as (Hheld & _ & Hbound & Hnodup).
  unfold refreshCovers. fold (firstLoop allSongs cache u).
  set (swept := List.fold_left (sweepKey (songMap allSongs))
                  (map_to_list (songToCover (firstLoop allSongs cache u)))
                  (newSongToCover (firstLoop allSongs cache u),
                   coverUrls (firstLoop allSongs cache u))).
  assert (Hentry : forall key e, fst swept !! key = Some e ->
                   newSongToCover (firstLoop allSongs cache u) !! key
                   = Some e).
  { intros key e H. apply sweep_sub in H. exact H. }
  assert (Hiss : issued (snd swept)
                 = issued (coverUrls (firstLoop allSongs cache u)))
    by apply sweep_issued.
  assert (Hrev : revokedLog (snd swept)
                 = (revokedLog u ++ _)%list)
    by (unfold swept; rewrite sweep_revoked; simpl; rewrite Hlog; reflexivity).
  unfold coherent. rewrite Hiss, Hrev. split; [|split; [|split]].
  - intros key e H. pose proof (Hentry key e H) as Hnew.
    split; [apply (Hlt key e Hnew)|].
    intros Hin. apply List.in_app_or in Hin as [Hin|Hin].
    + destruct (Hfrom key e Hnew) as [Hc|Hge].
      * exact (proj2 (Hheld key e Hc) Hin).
      * pose proof (proj1 (List.Forall_forall _ _) Hbound _ Hin) as Hb.
        simpl in Hb. lia.
    + apply revoked_by_sweep in Hin as (k2 & e2 & Hitem & Hgone & He).
      destruct (swept_item (k2, e2) Hitem) as (_ & Hnew2 & _ & _).
      simpl in Hnew2.
      assert (k2 = key) by exact (Hinj k2 key e2 e Hnew2 Hnew He).
      subst k2.
      assert (Hnone : fst swept !! key = None).
      { apply sweep_removed; [|exact Hgone].
        apply List.in_map_iff. exists (key, e2). split; [reflexivity|].
        exact Hitem. }
      congruence.
  - intros k1 k2 e1 e2 H1 H2.
    apply (Hinj k1 k2 e1 e2); [apply Hentry, H1 | apply Hentry, H2].
  - apply List.Forall_app. split.
    + eapply List.Forall_impl; [|exact Hbound]. simpl. intros h Hh. lia.
    + apply List.Forall_forall. intros h Hin.
      apply revoked_by_sweep in Hin as (k2 & e2 & Hitem & _ & <-).
      exact (proj2 (proj2 (proj2 (swept_item (k2, e2) Hitem)))).
  - apply List.NoDup_app; [exact Hnodup | |].
    + apply List.NoDup_map_NoDup_ForallPairs.
      * intros [k1 e1] [k2 e2] H1 H2 He. simpl in He.
        apply List.filter_In in H1 as [H1 _].
        apply List.filter_In in H2 as [H2 _].
        destruct (swept_item _ H1) as (_ & Hn1 & _ & _).
        destruct (swept_item _ H2) as (_ & Hn2 & _ & _).
        simpl in Hn1, Hn2.
        assert (k1 = k2) by exact (Hinj k1 k2 e1 e2 Hn1 Hn2 He).
        subst k2. congruence.
      * apply List.NoDup_filter, NoDup_ListNoDup, NoDup_map_to_list.
    + intros h Hold Hin.
      apply revoked_by_sweep in Hin as (k2 & e2 & Hitem & _ & <-).
      destruct (swept_item (k2, e2) Hitem) as (_ & _ & Hc & _).
      exact (proj2 (Hheld k2 e2 Hc) Hold).
Qed.

(** The entry of a song that no longer exists is dropped and its URL
    revoked, once. *)
Lemma refreshCovers_releases_gone (key : string) (e : CoverEntry) :
  cache !! key = Some e ->
  songMap allSongs !! key = None ->
  fst (refreshCovers allSongs cache u) !! key = None /\
  releases (entryCover e) (snd (refreshCovers allSongs cache u)) = 1%nat.
Proof.
  intros Hc Hgone. split; [apply refreshCovers_forgets, Hgone|].
  destruct refreshCovers_coherent as (_ & _ & _ & Hnodup).
  unfold releases. apply (proj1 (List.NoDup_count_occ' Nat.eq_dec _) Hnodup).
  unfold refreshCovers. fold (firstLoop allSongs cache u).
  rewrite sweep_revoked.
  apply List.in_or_app. right. apply List.in_map_iff.
  exists (key, e). split; [reflexivity|]. apply List.filter_In. simpl.
  rewrite Hgone. split; [|reflexivity].
  apply list_elem_of_In, elem_of_map_to_list.
  assert (Hfresh : ~ In key (List.map id (default [] allSongs))).
  { destruct allSongs as [songs|]; simpl; [|tauto].
    apply songMap_gone. exact Hgone. }
  unfold firstLoop. rewrite (proj1 (refreshSongs_other _ _ key Hfresh)).
  exact Hc.
Qed.

End Coherence.

(** *** A refresh that finds nothing to do *)

Lemma refreshSong_fresh_entry (w : CoverWork) (song : Song) (e : CoverEntry) :
  songToCover w !! id song = Some e ->
  lastEditedUtc song <= lastUpdatedUtc e ->
  refreshSong w song = w.
Proof.
  intros He Hts. unfold refreshSong. rewrite He.
  assert (S : (lastEditedUtc song >? lastUpdatedUtc e) = false).
  { rewrite Z.gtb_ltb. apply Z.ltb_ge. exact Hts. }
  rewrite S, He. destruct w, (cover song); reflexivity.
Qed.

Lemma refreshSong_without_cover (w : CoverWork) (song : Song) :
  cover song = None ->
  newSongToCover (refreshSong w song) = newSongToCover w /\
  coverUrls (refreshSong w song) = coverUrls w.
Proof.
  intros Hcover. destruct (refreshSong_shape w song)
    as (kept & _ & _ & [(_ & Hc & _)|(_ & ->)]); [contradiction|].
  split; reflexivity.
Qed.

Lemma firstLoop_nothing_to_do (songs : list Song) (w : CoverWork) :
  List.NoDup (List.map id songs) ->
  (forall song, In song songs -> cover song <> None ->
     exists e, songToCover w !! id song = Some e /\
               lastEditedUtc song <= lastUpdatedUtc e) ->
  newSongToCover (List.fold_left refreshSong songs w) = newSongToCover w /\
  coverUrls (List.fold_left refreshSong songs w) = coverUrls w.
Proof.
  revert w. induction songs as [|song rest IH]; intros w Hnd Hfresh; simpl;
    [split; reflexivity|].
  simpl in Hnd. inversion Hnd as [|? ? Hout Hnd']; subst.
  destruct (cover song) as [c|] eqn:Hcover.
  - destruct (Hfresh song) as (e & He & Hts);
      [left; reflexivity | congruence |].
    rewrite (refreshSong_fresh_entry w song e He Hts).
    apply IH; [exact Hnd'|]. intros s Hs. apply Hfresh. right. exact Hs.
  - destruct (refreshSong_without_cover w song Hcover) as [Hn Hu].
    rewrite <- Hn, <- Hu. apply IH; [exact Hnd'|].
    intros s Hs Hc. destruct (Hfresh s) as (e & He & Hts);
      [right; exact Hs | exact Hc|].
    exists e. split; [|exact Hts].
    assert (N : id s <> id song).
    { intros E. apply Hout. rewrite <- E. apply List.in_map. exact Hs. }
    rewrite (proj1 (refreshSong_other w song (id s) N)). exact He.
Qed.

Lemma sweep_nothing_to_do (known : gmap string Song)
  (items : list (string * CoverEntry))
  (target : gmap string CoverEntry * UrlStore) :
  (forall item, In item items -> known !! fst item <> None) ->
  List.fold_left (sweepKey known) items target = target.
Proof.
  revert target. induction items as [|item items IH]; intros target H; simpl;
    [reflexivity|].
  rewrite IH by (intros i Hi; apply H; right; exact Hi).
  unfold sweepKey. destruct (known !! fst item) eqn:K; [reflexivity|].
  exfalso. apply (H item); [left; reflexivity | exact K].
Qed.

(** A cache that holds an entry, not older than the song, for every song
    with a cover, and no entry without a song, is left as it is. *)
Lemma refreshCovers_nothing_to_do (songs : list Song)
  (cache : gmap string CoverEntry) (u : UrlStore) :
  List.NoDup (List.map id songs) ->
  (forall song, In song songs -> cover song <> None ->
     exists e, cache !! id song = Some e /\
               lastEditedUtc song <= lastUpdatedUtc e) ->
  (forall key, songMap (Some songs) !! key = None -> cache !! key = None) ->
  refreshCovers (Some songs) cache u = (cache, u).
Proof.
  intros Hnd Hfresh Hknown. unfold refreshCovers. simpl default.
  set (w0 := {| songToCover := cache; newSongToCover := cache;
                coverUrls := u |}).
  destruct (firstLoop_nothing_to_do songs w0 Hnd Hfresh) as [Hn Hu].
  rewrite Hn, Hu. simpl. apply sweep_nothing_to_do.
  intros [key e] Hin Hgone. simpl in Hgone.
  apply list_elem_of_In, elem_of_map_to_list in Hin.
  apply (proj2 (refreshSongs_log songs w0)) in Hin. simpl in Hin.
  rewrite (Hknown key Hgone) in Hin. discriminate.
Qed.

(** X16: a refresh keeps the cache and the URL registry in agreement:
    afterwards, as before, every URL the cache holds has been created
    and is not revoked, no two songs share a URL, and no URL has been
    revoked twice. *)
Theorem X16_cache_never_holds_a_revoked_url :
  forall (allSongs : option (list Song)) (cache : gmap string CoverEntry)
         (u : UrlStore),
    coherent cache u ->
    coherent (fst (refreshCovers allSongs cache u))
      (snd (refreshCovers allSongs cache u)).
Proof. intros. apply refreshCovers_coherent. assumption. Qed.

(** An instance of X16: the sample cache, refreshed after the song was
    deleted. *)
Lemma X16_cache_never_holds_a_revoked_url_witness :
  coherent (fst (refreshCovers (Some []) Sample.cache100 Sample.urls1))
    (snd (refreshCovers (Some []) Sample.cache100 Sample.urls1)).
Proof.
  apply (X16_cache_never_holds_a_revoked_url (Some []) Sample.cache100
           Sample.urls1).
  unfold coherent, Sample.cache100, Sample.urls1. simpl. repeat split.
  - apply lookup_singleton_Some in H as [_ <-]. simpl. lia.
  - tauto.
  - intros k1 k2 e1 e2 H1 H2 _.
    apply lookup_singleton_Some in H1 as [<- _].
    apply lookup_singleton_Some in H2 as [<- _]. reflexivity.
  - constructor.
  - constructor.
Defined.

(** X17: when a song is no longer in the collection, the refresh drops
    its entry from the cache and revokes its URL, which from then on has
    been revoked exactly once. *)
Theorem X17_deleted_song_releases_its_cover :
  forall (allSongs : option (list Song)) (cache : gmap string CoverEntry)
         (u : UrlStore) (key : string) (e : CoverEntry),
    coherent cache u ->
    cache !! key = Some e ->
    songMap allSongs !! key = None ->
    fst (refreshCovers allSongs cache u) !! key = None /\
    releases (entryCover e) (snd (refreshCovers allSongs cache u)) = 1%nat.
Proof. intros. apply refreshCovers_releases_gone; assumption. Qed.

(** An instance of X17: the sample song is deleted from the table. *)
Lemma X17_deleted_song_releases_its_cover_witness :
  let songs := Some (Dexie.toArray (Dexie.delete "s1" [Sample.covered100])) in
  fst (refreshCovers songs Sample.cache100 Sample.urls1) !! "s1" = None /\
  releases 0 (snd (refreshCovers songs Sample.cache100 Sample.urls1)) = 1%nat.
Proof.
  intros songs.
  apply (X17_deleted_song_releases_its_cover songs Sample.cache100
           Sample.urls1 "s1" (mkEntry 0 100)).
  - unfold coherent, Sample.cache100, Sample.urls1. simpl. repeat split.
    + apply lookup_singleton_Some in H as [_ <-]. simpl. lia.
    + tauto.
    + intros k1 k2 e1 e2 H1 H2 _.
      apply lookup_singleton_Some in H1 as [<- _].
      apply lookup_singleton_Some in H2 as [<- _]. reflexivity.
    + constructor.
    + constructor.
  - reflexivity.
  - reflexivity.
Defined.

(** X18: over songs with distinct ids, a second refresh with the same
    collection changes nothing: it creates no URL, revokes none and
    leaves the cache as the first refresh made it. *)
Theorem X18_refresh_is_idempotent :
  forall (songs : list Song) (cache : gmap string CoverEntry) (u : UrlStore),
    List.NoDup (List.map id songs) ->
    let once := refreshCovers (Some songs) cache u in
    refreshCovers (Some songs) (fst once) (snd once) = once.
Proof.
  intros songs cache u Hnd once.
  rewrite (surjective_pairing once) at 3.
  apply refreshCovers_nothing_to_do; [exact Hnd | |].
  - intros song Hin Hcover. subst once. unfold refreshCovers. simpl default.
    set (w0 := {| songToCover := cache; newSongToCover := cache;
                  coverUrls := u |}).
    destruct (refreshSongs_own songs w0 song Hnd (inStep_start_weak cache u)
                Hin Hcover) as (e & He & Hts).
    exists e. split; [|exact Hts].
    rewrite sweep_kept; [exact He|]. left. apply member_known. exact Hin.
  - intros key Hgone. apply refreshCovers_forgets. exact Hgone.
Qed.

(** An instance of X18: the refresh after the update of the sample
    song, run twice. *)
Lemma X18_refresh_is_idempotent_witness :
  let once :=
    refreshCovers (Some [Sample.covered150]) Sample.cache100 Sample.urls1 in
  refreshCovers (Some [Sample.covered150]) (fst once) (snd once) = once.
Proof.
  apply (X18_refresh_is_idempotent [Sample.covered150] Sample.cache100
           Sample.urls1).
  simpl. repeat constructor. simpl. tauto.
Defined.

(** ** Playback: the source of the audio element *)

Lemma drawn_own_count (p : Player) : drawn (randomCalls p) p = p.
Proof. destruct p; reflexivity. Qed.

(** A call that selects a song ends in [load]. *)
Lemma playSong_selected_shape (random : nat -> Q)
  (allSongs : option (list Song)) (albums : list Album)
  (currentAlbum : string) (fuel : nat) (song : option Song)
  (p p' : Player) (s : Song) :
  playSong random allSongs albums currentAlbum fuel song p
    = Some (p', Selected s) ->
  exists k, p' = load s (drawn k (released p)).
Proof.
  unfold playSong.
  destruct (filterSongs allSongs (activeAlbum albums currentAlbum))
    as [[|s0 rest]|]; try discriminate.
  destruct song as [chosen|].
  - intros H. injection H as <- <-. exists (randomCalls (released p)).
    rewrite drawn_own_count. reflexivity.
  - destruct (draw random (s0 :: rest) (randomCalls (released p)))
      as [first|]; [|discriminate].
    destruct (reroll random fuel (s0 :: rest) (currentSong (released p))
                (S (randomCalls (released p))) first)
      as [[[s1|] k]|]; try discriminate.
    intros H. injection H as <- <-. exists k. reflexivity.
Qed.

(** X19: a call of [playSong] that selects a song, explicitly or at
    random, makes it the current song and plays it from a URL created by
    the call; it revokes the previous source and no other URL; and if
    the previous source was usable, so is the new one. *)
Theorem X19_selection_replaces_the_source :
  forall (random : nat -> Q) (allSongs : option (list Song))
         (albums : list Album) (currentAlbum : string) (fuel : nat)
         (song : option Song) (p p' : Player) (s : Song),
    playSong random allSongs albums currentAlbum fuel song p
      = Some (p', Selected s) ->
    currentSong p' = Some s /\
    audioPlaying p' = true /\
    audioSrc p' = Some (issued (playerUrls p)) /\
    issued (playerUrls p') = S (issued (playerUrls p)) /\
    revokedLog (playerUrls p')
      = (revokedLog (playerUrls p) ++ sourceAsList (audioSrc p))%list /\
    notices p' = notices p /\
    (sourceLive p -> sourceLive p').
Proof.
  intros random allSongs albums currentAlbum fuel song p p' s Hplay.
  destruct (playSong_selected_shape _ _ _ _ _ _ _ _ _ Hplay) as [k ->].
  assert (Hlog : revokedLog (revokeSource (audioSrc p) (playerUrls p))
                 = (revokedLog (playerUrls p)
                    ++ sourceAsList (audioSrc p))%list).
  { destruct (audioSrc p); simpl; [reflexivity|].
    rewrite List.app_nil_r. reflexivity. }
  assert (Hiss : issued (revokeSource (audioSrc p) (playerUrls p))
                 = issued (playerUrls p))
    by (destruct (audioSrc p); reflexivity).
  split; [reflexivity|]. split; [reflexivity|].
  split; [simpl; rewrite Hiss; reflexivity|].
  split; [simpl; rewrite Hiss; reflexivity|].
  split; [simpl; exact Hlog|]. split; [reflexivity|].
  intros [Hbound Hsrc]. unfold sourceLive. simpl. rewrite Hlog, Hiss. split.
  - apply List.Forall_app. split.
    + eapply List.Forall_impl; [|exact Hbound]. simpl. intros h Hh. lia.
    + destruct (audioSrc p) as [h|]; simpl; [|constructor].
      constructor; [|constructor]. destruct (Hsrc h eq_refl). lia.
  - intros h Hh. injection Hh as <-. split; [lia|]. intros Hin.
    apply List.in_app_or in Hin as [Hin|Hin].
    + pose proof (proj1 (List.Forall_forall _ _) Hbound _ Hin) as Hb.
      simpl in Hb. lia.
    + destruct (audioSrc p) as [h|]; simpl in Hin; [|tauto].
      destruct Hin as [E|[]]. destruct (Hsrc _ eq_refl). lia.
Qed.

(** An instance of X19: a row is clicked while another song plays. *)
Lemma X19_selection_replaces_the_source_witness :
  exists p',
    playSong Sample.zeros (Some [Sample.untagged; Sample.other]) [] "" 0
      (Some Sample.other) Sample.playing = Some (p', Selected Sample.other) /\
    revokedLog (playerUrls p') = [0%nat] /\
    audioSrc p' = Some 1%nat /\
    sourceLive p'.
Proof.
  eexists. split; [reflexivity|].
  destruct (X19_selection_replaces_the_source Sample.zeros
              (Some [Sample.untagged; Sample.other]) [] "" 0
              (Some Sample.other) Sample.playing _ Sample.other eq_refl)
    as (_ & _ & Hsrc & _ & Hlog & _ & Hlive).
  split; [exact Hlog|]. split; [exact Hsrc|].
  apply Hlive. unfold sourceLive. simpl. split; [constructor|].
  intros h H. injection H as <-. split; [lia | tauto].
Defined.

(** ** Albums *)

Lemma find_by_name_None (n : string) (albums : list Album) :
  List.find (fun a => JS.strictEq (name a) n) albums = None <->
  ~ In n (List.map name albums).
Proof.
  induction albums as [|a rest IH]; simpl; [tauto|].
  unfold JS.strictEq in *. destruct (String.eqb_spec (name a) n) as [E|N].
  - split; [discriminate | tauto].
  - rewrite IH. tauto.
Qed.

Lemma activeAlbum_unknown (albums : list Album) (c : string) :
  ~ In c (List.map name albums) ->
  activeAlbum albums c = {| followAllRules := true; rules := []; name := "" |}.
Proof.
  intros H. unfold activeAlbum.
  rewrite (proj2 (find_by_name_None c albums) H). reflexivity.
Qed.

Lemma activeAlbum_found (albums : list Album) (a : Album) :
  List.NoDup (List.map name albums) -> In a albums ->
  activeAlbum albums (name a) = a.
Proof.
  unfold activeAlbum. induction albums as [|b rest IH]; intros Hnd Hin;
    [destruct Hin|].
  simpl in Hnd. inversion Hnd as [|? ? Hfresh Hnd']; subst. simpl.
  unfold JS.strictEq. destruct (String.eqb_spec (name b) (name a)) as [E|N].
  - destruct Hin as [->|Hin]; [reflexivity|].
    exfalso. apply Hfresh. rewrite E. apply List.in_map. exact Hin.
  - destruct Hin as [->|Hin]; [congruence|]. apply IH; assumption.
Qed.

Lemma activeAlbum_app_other (albums : list Album) (a : Album) (c : string) :
  c <> name a -> activeAlbum (albums ++ [a]) c = activeAlbum albums c.
Proof.
  intros N. unfold activeAlbum.
  assert (H : List.find (fun b => JS.strictEq (name b) c) (albums ++ [a])
              = List.find (fun b => JS.strictEq (name b) c) albums).
  { induction albums as [|b rest IH]; simpl.
    - unfold JS.strictEq.
      destruct (String.eqb_spec (name a) c); [congruence | reflexivity].
    - destruct (JS.strictEq (name b) c); [reflexivity | exact IH]. }
  rewrite H. reflexivity.
Qed.

(** The scope of an album that does not exist is the whole collection. *)
Lemma default_scope_is_everything (allSongs : option (list Song)) :
  filterSongs allSongs {| followAllRules := true; rules := []; name := "" |}
  = allSongs.
Proof.
  destruct allSongs as [songs|]; [|reflexivity]. simpl.
  rewrite filter_all; reflexivity.
Qed.

(** X20: creating an album. A name that is taken is refused: the list
    is the same, the error is shown and the modal stays open. Otherwise
    the album is appended, the names of the list stay pairwise distinct,
    the new name selects the new album and every other name selects
    what it selected before. *)
Theorem X20_create_album :
  forall (form : Album) (albums : list Album),
    List.NoDup (List.map name albums) ->
    let done := submitCreateAlbum form albums in
    List.NoDup (List.map name (albumsAfter done)) /\
    (In (name form) (List.map name albums) ->
       done = {| albumsAfter := albums;
                 noticeShown := Error "Album already exists";
                 stillOpen := true |}) /\
    (~ In (name form) (List.map name albums) ->
       done = {| albumsAfter := (albums ++ [form])%list;
                 noticeShown := Notify "Album created!";
                 stillOpen := false |} /\
       activeAlbum (albumsAfter done) (name form) = form /\
       (forall c, c <> name form ->
          activeAlbum (albumsAfter done) c = activeAlbum albums c)).
Proof.
  intros form albums Hnd done. subst done. unfold submitCreateAlbum.
  destruct (List.find (fun a => JS.strictEq (name a) (name form)) albums)
    as [found|] eqn:F.
  - assert (Hin : In (name form) (List.map name albums)).
    { destruct (List.in_dec string_dec (name form) (List.map name albums))
        as [H|H]; [exact H|].
      apply find_by_name_None in H. congruence. }
    simpl. split; [exact Hnd|]. split; [reflexivity | tauto].
  - pose proof (proj1 (find_by_name_None _ _) F) as Hout. simpl.
    assert (Hnd' : List.NoDup (List.map name (albums ++ [form]))).
    { rewrite List.map_app. simpl.
      apply List.NoDup_app; [exact Hnd | repeat constructor; simpl; tauto|].
      intros x Hx [<-|[]]. exact (Hout Hx). }
    split; [exact Hnd'|]. split; [tauto|]. intros _.
    split; [reflexivity|]. split.
    + apply activeAlbum_found; [exact Hnd'|].
      apply List.in_or_app. right. left. reflexivity.
    + intros c N. apply activeAlbum_app_other. exact N.
Qed.

(** An instance of X20: "Favorites" is created twice. *)
Lemma X20_create_album_witness :
  submitCreateAlbum Sample2.favorites [Sample2.favorites]
    = {| albumsAfter := [Sample2.favorites];
         noticeShown := Error "Album already exists";
         stillOpen := true |} /\
  activeAlbum (albumsAfter (submitCreateAlbum Sample2.favorites []))
    "Favorites" = Sample2.favorites.
Proof.
  split.
  - apply (X20_create_album Sample2.favorites [Sample2.favorites]).
    + simpl. repeat constructor. simpl. tauto.
    + left. reflexivity.
  - apply (X20_create_album Sample2.favorites []).
    + constructor.
    + simpl. tauto.
Defined.

Lemma findIndexByName_Some (n : string) (albums : list Album) (j : nat) :
  findIndexByName n albums = Some j ->
  exists a, albums !! j = Some a /\ name a = n.
Proof.
  revert j. induction albums as [|b rest IH]; intros j; simpl;
    [discriminate|].
  unfold JS.strictEq. destruct (String.eqb_spec (name b) n) as [E|N].
  - intros H. injection H as <-. exists b. split; [reflexivity | exact E].
  - destruct (findIndexByName n rest) as [i|]; [|discriminate].
    intros H. injection H as <-. apply (IH i). reflexivity.
Qed.

Lemma findIndexByName_None (n : string) (albums : list Album) :
  findIndexByName n albums = None -> ~ In n (List.map name albums).
Proof.
  induction albums as [|b rest IH]; simpl; [tauto|].
  unfold JS.strictEq. destruct (String.eqb_spec (name b) n) as [E|N];
    [discriminate|].
  destruct (findIndexByName n rest); [discriminate|].
  intros _ [H|H]; [congruence | exact (IH eq_refl H)].
Qed.

(** With distinct names the index found is the index of the album. *)
Lemma findIndexByName_unique (albums : list Album) (j : nat) (a : Album) :
  List.NoDup (List.map name albums) ->
  albums !! j = Some a ->
  findIndexByName (name a) albums = Some j.
Proof.
  revert j. induction albums as [|b rest IH]; intros j Hnd Hj;
    [discriminate|].
  simpl in Hnd. inversion Hnd as [|? ? Hfresh Hnd']; subst. simpl.
  unfold JS.strictEq. destruct (String.eqb_spec (name b) (name a)) as [E|N].
  - destruct j as [|j]; [reflexivity|]. simpl in Hj.
    exfalso. apply Hfresh. rewrite E. apply List.in_map.
    apply list_elem_of_In, list_elem_of_lookup. exists j. exact Hj.
  - destruct j as [|j]; [simpl in Hj; congruence|]. simpl in Hj.
    rewrite (IH j Hnd' Hj). reflexivity.
Qed.

(** Replacing an element by one that is new to the list, or by itself,
    keeps the elements distinct. *)
Lemma NoDup_replace (l : list string) (i : nat) (x y : string) :
  List.NoDup l -> l !! i = Some x -> y = x \/ ~ In y l ->
  List.NoDup (<[i := y]> l).
Proof.
  revert i. induction l as [|z l IH]; intros i Hnd Hi Hy; [discriminate|].
  inversion Hnd as [|? ? Hfresh Hnd']; subst.
  destruct i as [|i]; simpl in *.
  - injection Hi as ->. constructor; [|exact Hnd'].
    destruct Hy as [->|Hy]; tauto.
  - assert (Hyz : y <> z).
    { destruct Hy as [->|Hy]; [|intros ->; apply Hy; left; reflexivity].
      intros ->. apply Hfresh.
      apply list_elem_of_In, list_elem_of_lookup. exists i. exact Hi. }
    constructor.
    + intros Hin. apply list_elem_of_In, list_elem_of_lookup in Hin
        as [j Hj].
      destruct (decide (j = i)) as [->|N].
      * rewrite list_lookup_insert_eq in Hj
          by (apply lookup_lt_Some in Hi; exact Hi).
        congruence.
      * rewrite list_lookup_insert_ne in Hj by congruence.
        apply Hfresh, list_elem_of_In, list_elem_of_lookup. eauto.
    + apply (IH i); [exact Hnd' | exact Hi | tauto].
Qed.

Lemma map_name_insert (albums : list Album) (i : nat) (a : Album) :
  List.map name (<[i := a]> albums) = <[i := name a]> (List.map name albums).
Proof.
  revert i. induction albums as [|b rest IH]; intros i; [reflexivity|].
  destruct i as [|i]; simpl; [reflexivity|]. rewrite IH. reflexivity.
Qed.

Lemma map_name_lookup (albums : list Album) (i : nat) (a : Album) :
  albums !! i = Some a -> List.map name albums !! i = Some (name a).
Proof.
  revert i. induction albums as [|b rest IH]; intros i; [discriminate|].
  destruct i as [|i]; simpl; [intros H; injection H as ->; reflexivity|].
  apply IH.
Qed.

(** X21: editing the album of row [idx], the names of the list being
    pairwise distinct. If another row has the name of the form, the edit
    is refused: the list is the same, the error is shown and the modal
    stays open. Otherwise (the name is new, or it is the row's own) the
    row becomes the form, the other rows are untouched, the names stay
    pairwise distinct and the name of the form selects the form. *)
Theorem X21_edit_album :
  forall (form : Album) (idx : nat) (albums : list Album) (old : Album),
    List.NoDup (List.map name albums) ->
    albums !! idx = Some old ->
    ((exists j other, j <> idx /\ albums !! j = Some other /\
                      name other = name form) ->
       submitEditAlbum form idx albums
       = Some {| albumsAfter := albums;
                 noticeShown := Error "Album already exists";
                 stillOpen := true |}) /\
    (~ (exists j other, j <> idx /\ albums !! j = Some other /\
                        name other = name form) ->
       submitEditAlbum form idx albums
       = Some {| albumsAfter := <[idx := form]> albums;
                 noticeShown := Notify "Album updated!";
                 stillOpen := false |} /\
       List.NoDup (List.map name (<[idx := form]> albums)) /\
       activeAlbum (<[idx := form]> albums) (name form) = form).
Proof.
  intros form idx albums old Hnd Hidx.
  assert (Hlen : (idx <? length albums)%nat = true).
  { apply Nat.ltb_lt. apply lookup_lt_Some in Hidx. exact Hidx. }
  split.
  - intros (j & other & Hj & Hother & Hname). unfold submitEditAlbum.
    rewrite <- Hname, (findIndexByName_unique albums j other Hnd Hother).
    assert (E : Nat.eqb j idx = false) by (apply Nat.eqb_neq; exact Hj).
    rewrite E. reflexivity.
  - intros Hnone.
    assert (Hfree : name form = name old \/
                    ~ In (name form) (List.map name albums)).
    { destruct (List.in_dec string_dec (name form) (List.map name albums))
        as [Hin|Hout]; [|right; exact Hout].
      left. apply List.in_map_iff in Hin as (other & Hname & Hin).
      apply list_elem_of_In, list_elem_of_lookup in Hin as [j Hj].
      destruct (decide (j = idx)) as [->|N]; [congruence|].
      exfalso. apply Hnone. exists j, other. tauto. }
    assert (Hnd' : List.NoDup (List.map name (<[idx := form]> albums))).
    { rewrite map_name_insert.
      apply (NoDup_replace _ idx (name old));
        [exact Hnd | apply map_name_lookup, Hidx | exact Hfree]. }
    split; [|split; [exact Hnd'|]].
    + unfold submitEditAlbum.
      destruct (findIndexByName (name form) albums) as [found|] eqn:F.
      * destruct (findIndexByName_Some _ _ _ F) as (other & Hother & Hname).
        destruct (decide (found = idx)) as [->|N].
        -- rewrite Nat.eqb_refl. simpl. rewrite Hlen. reflexivity.
        -- exfalso. apply Hnone. exists found, other. tauto.
      * simpl. rewrite Hlen. reflexivity.
    + apply activeAlbum_found; [exact Hnd'|].
      apply list_elem_of_In, list_elem_of_lookup. exists idx.
      apply list_lookup_insert_eq. apply lookup_lt_Some in Hidx. exact Hidx.
Qed.

(** An instance of X21: the second album is renamed to the name of the
    first, then to a new name. *)
Lemma X21_edit_album_witness :
  submitEditAlbum (mkAlbum "Favorites" true []) 1
    [Sample2.favorites; Sample2.introOnly]
  = Some {| albumsAfter := [Sample2.favorites; Sample2.introOnly];
            noticeShown := Error "Album already exists";
            stillOpen := true |} /\
  activeAlbum (<[1%nat := mkAlbum "Quiet" true []]>
                 [Sample2.favorites; Sample2.introOnly]) "Quiet"
  = mkAlbum "Quiet" true [].
Proof.
  assert (Hnd : List.NoDup
                  (List.map name [Sample2.favorites; Sample2.introOnly])).
  { simpl. repeat constructor; simpl; [|tauto].
    intros [H|[]]. discriminate H. }
  split.
  - apply (proj1 (X21_edit_album (mkAlbum "Favorites" true []) 1
                    [Sample2.favorites; Sample2.introOnly] Sample2.introOnly
                    Hnd eq_refl)).
    exists 0%nat, Sample2.favorites. repeat split. discriminate.
  - apply (proj2 (X21_edit_album (mkAlbum "Quiet" true []) 1
                    [Sample2.favorites; Sample2.introOnly] Sample2.introOnly
                    Hnd eq_refl)).
    intros (j & other & Hj & Hother & Hname).
    destruct j as [|[|j]]; simpl in Hother; try discriminate.
    + injection Hother as <-. discriminate Hname.
    + congruence.
Defined.

Lemma deleteAlbum_split (albums : list Album) (idx : nat) (a : Album) :
  albums !! idx = Some a ->
  albums = (List.firstn idx albums ++ a :: List.skipn (S idx) albums)%list.
Proof.
  revert idx. induction albums as [|b rest IH]; intros idx; [discriminate|].
  destruct idx as [|idx]; simpl.
  - intros H. injection H as ->. reflexivity.
  - intros H. f_equal. apply IH. exact H.
Qed.

(** X22: deleting the album of a row, the names being pairwise
    distinct, removes that album only: the other names select what they
    selected before, and the deleted name selects nothing any more, so
    that a playback still scoped to it draws from the whole
    collection. *)
Theorem X22_delete_album :
  forall (albums : list Album) (idx : nat) (a : Album)
         (allSongs : option (list Song)),
    List.NoDup (List.map name albums) ->
    albums !! idx = Some a ->
    let rest := deleteAlbum idx albums in
    List.NoDup (List.map name rest) /\
    S (length rest) = length albums /\
    filterSongs allSongs (activeAlbum rest (name a)) = allSongs /\
    (forall b, In b albums -> name b <> name a ->
       activeAlbum rest (name b) = b).
Proof.
  intros albums idx a allSongs Hnd Hidx rest. subst rest. unfold deleteAlbum.
  pose proof (deleteAlbum_split albums idx a Hidx) as Hsplit.
  set (pre := List.firstn idx albums) in *.
  set (post := List.skipn (S idx) albums) in *.
  assert (Hnames : List.NoDup (List.map name (pre ++ post)) /\
                   ~ In (name a) (List.map name (pre ++ post))).
  { rewrite Hsplit, List.map_app in Hnd. simpl in Hnd.
    rewrite List.map_app. split.
    - apply (List.NoDup_remove_1 _ _ _ Hnd).
    - apply (List.NoDup_remove_2 _ _ _ Hnd). }
  destruct Hnames as [Hnd' Hout]. split; [exact Hnd'|]. split; [|split].
  - assert (Hl : length albums = length (pre ++ a :: post)%list)
      by (rewrite <- Hsplit; reflexivity).
    rewrite Hl, !List.length_app. simpl. lia.
  - rewrite (activeAlbum_unknown _ _ Hout). apply default_scope_is_everything.
  - intros b Hin Hname. apply activeAlbum_found; [exact Hnd'|].
    rewrite Hsplit in Hin. apply List.in_app_or in Hin as [Hin|[->|Hin]];
      [apply List.in_or_app; left; exact Hin | congruence
      | apply List.in_or_app; right; exact Hin].
Qed.

(** An instance of X22: "Favorites" is deleted while playback is scoped
    to it. *)
Lemma X22_delete_album_witness :
  filterSongs (Some [Sample.untagged; Sample.other])
    (activeAlbum (deleteAlbum 0 [Sample2.favorites; Sample2.introOnly])
       "Favorites")
  = Some [Sample.untagged; Sample.other].
Proof.
  apply (X22_delete_album [Sample2.favorites; Sample2.introOnly] 0
           Sample2.favorites (Some [Sample.untagged; Sample.other])).
  - simpl. repeat constructor; simpl; [|tauto].
    intros [H|[]]. discriminate H.
  - reflexivity.
Defined.

(** ** Completion of an ingestion call, by kind of picked item *)

(** Inside a folder every call is awaited and every failure is
    propagated: when the callback fulfils, all the work done on its
    behalf has settled, fulfilled. *)
Lemma folderCallback_all_fulfilled :
  forall (item : DriveItem) (now : nat),
    outcome (fst (folderCallback now item)) = Fulfilled ->
    Forall (fun p => outcome p = Fulfilled) (snd (folderCallback now item)).
Proof.
  fix IH 1. intros [took result | took [children|]] now; simpl.
  - intros H. constructor; [exact H | constructor].
  - intros Hall. constructor; [exact Hall|].
    apply promiseAll_fulfilled in Hall.
    set (top := settledAt
                  (promiseAll (now + took)
                     (List.map fst
                        (List.map (folderCallback (now + took)) children))))
      in *.
    clearbody top. induction children as [|child children IHc]; simpl;
      [constructor|].
    simpl in Hall. inversion Hall as [|? ? [Hchild Hle] Hrest]; subst.
    apply List.Forall_app. split; [|exact (IHc Hrest)].
    exact (IH child (now + took)%nat Hchild).
  - discriminate.
Qed.

(** X23: [handleAddFolder] waits for everything below the folder and
    lets no failure pass: when its promise is fulfilled, every call of
    [handleAddSong] and [handleAddFolder] made for the folder, at any
    depth, has been fulfilled, no later than that promise. *)
Theorem X23_folder_awaits_everything_below :
  forall (now took : nat) (listing : option (list DriveItem)),
    outcome (fst (handleAddFolder now took listing)) = Fulfilled ->
    Forall (fun p =>
              outcome p = Fulfilled /\
              (settledAt p
               <= settledAt (fst (handleAddFolder now took listing)))%nat)
      (snd (handleAddFolder now took listing)).
Proof.
  intros now took listing H. unfold handleAddFolder in *.
  pose proof (folderCallback_all_fulfilled _ _ H) as Hf.
  pose proof (folderCallback_awaits_all _ _ H) as Ha.
  apply List.Forall_forall. intros p Hp. split.
  - exact (proj1 (List.Forall_forall _ _) Hf p Hp).
  - exact (proj1 (List.Forall_forall _ _) Ha p Hp).
Qed.

(** An instance of X23: a folder with a file and a subfolder with a
    file. *)
Lemma X23_folder_awaits_everything_below_witness :
  let listing :=
    Some [DriveFile 3 Fulfilled;
          DriveFolder 1 (Some [DriveFile 5 Fulfilled])] in
  Forall (fun p =>
            outcome p = Fulfilled /\
            (settledAt p <= settledAt (fst (handleAddFolder 0 2 listing)))%nat)
    (snd (handleAddFolder 0 2 listing)).
Proof.
  intros listing.
  apply (X23_folder_awaits_everything_below 0 2 listing). reflexivity.
Defined.

Lemma picker_rejection_from_files (data : list DriveItem) :
  firstRejection (List.map fst (List.map (pickerCallback 0) data))
  = firstRejection
      (List.map fst (List.map (pickerCallback 0) (List.filter isFile data))).
Proof.
  induction data as [|item data IH]; [reflexivity|].
  destruct item as [took result | took listing]; simpl.
  - rewrite IH. reflexivity.
  - exact IH.
Qed.

Lemma picker_latest_from_files (data : list DriveItem) (n : nat) :
  List.fold_left Nat.max
    (List.map settledAt (List.map fst (List.map (pickerCallback 0) data))) n
  = List.fold_left Nat.max
      (List.map settledAt
         (List.map fst (List.map (pickerCallback 0) (List.filter isFile data))))
      n.
Proof.
  revert n. induction data as [|item data IH]; intros n; [reflexivity|].
  destruct item as [took result | took listing]; simpl.
  - apply IH.
  - rewrite Nat.max_0_r. apply IH.
Qed.

Lemma picker_files_spawned (data : list DriveItem) :
  forallb isFile data = true ->
  List.concat (List.map snd (List.map (pickerCallback 0) data))
  = List.map fst (List.map (pickerCallback 0) data).
Proof.
  induction data as [|item data IH]; [reflexivity|].
  destruct item as [took result | took listing]; simpl; [|discriminate].
  intros H. rewrite (IH H). reflexivity.
Qed.

(** X24: what [handlePickerChange] shows, and when, depends on the
    picked files only: picked folders, whatever happens in them, change
    neither the notice nor the instant of completion. When only files
    are picked and the success notice is shown, every download has
    settled by then. *)
Theorem X24_notice_depends_on_picked_files :
  forall data : list DriveItem,
    (completedAt (handlePickerChange data)
     = completedAt (handlePickerChange (List.filter isFile data)) /\
     shown (handlePickerChange data)
     = shown (handlePickerChange (List.filter isFile data))) /\
    (forallb isFile data = true ->
     shown (handlePickerChange data) = [Notify "Songs uploaded and updated"] ->
     Forall
       (fun p => (settledAt p <= completedAt (handlePickerChange data))%nat)
       (spawned (handlePickerChange data))).
Proof.
  intros data. split.
  - unfold handlePickerChange, promiseAll. simpl.
    rewrite <- picker_rejection_from_files, <- picker_latest_from_files.
    split; reflexivity.
  - intros Hfiles Hshown. unfold handlePickerChange in *. simpl in *.
    rewrite (picker_files_spawned data Hfiles).
    set (ps := List.map fst (List.map (pickerCallback 0) data)) in *.
    assert (Hok : outcome (promiseAll 0 ps) = Fulfilled)
      by (destruct (outcome (promiseAll 0 ps)); [reflexivity | discriminate]).
    eapply List.Forall_impl; [|exact (promiseAll_fulfilled 0 ps Hok)].
    simpl. intros p [_ Hle]. exact Hle.
Qed.

(** An instance of X24: two files are picked and both downloads
    succeed. *)
Lemma X24_notice_depends_on_picked_files_witness :
  let data := [DriveFile 3 Fulfilled; DriveFile 1 Fulfilled] in
  Forall (fun p => (settledAt p <= completedAt (handlePickerChange data))%nat)
    (spawned (handlePickerChange data)).
Proof.
  intros data.
  apply (proj2 (X24_notice_depends_on_picked_files data)); reflexivity.
Defined.

(** ** The modal *)

Lemma modalEffect_settles (m : ModalState) :
  modalEffect (modalEffect (modalEffect m)) = modalEffect (modalEffect m).
Proof. destruct m as [[|] [|] [|] [|]]; reflexivity. Qed.

(** The state of a modal at rest between events: it is in the document
    unless [modalDeleted], and then opaque when [pseudoShow]. *)
Lemma modalStep_invariant (m : ModalState) (ev : ModalEvent) :
  pseudoShow m = show m /\ scrollLocked m = show m /\
  (show m = true -> modalDeleted m = false) ->
  let m' := modalStep m ev in
  pseudoShow m' = show m' /\ scrollLocked m' = show m' /\
  (show m' = true -> modalDeleted m' = false).
Proof.
  destruct m as [[|] [|] [|] [|]], ev as [[|]|]; simpl;
    intros (H1 & H2 & H3); try discriminate;
    try (specialize (H3 eq_refl); discriminate);
    repeat split; try reflexivity; try discriminate.
Qed.

(** X25: the effect of the modal reaches a state it does not change in
    at most two runs, from any state. *)
Theorem X25_modal_effect_settles :
  forall m : ModalState,
    modalEffect (modalEffect (modalEffect m)) = modalEffect (modalEffect m).
Proof. exact modalEffect_settles. Qed.

(** X26: whatever the parent does with [show] and whenever transitions
    end, once the effect has settled the modal is opaque, and the scroll
    of the body locked, exactly when [show] is set; and a modal that is
    shown is in the document. *)
Theorem X26_modal_follows_show :
  forall (shown : bool) (events : list ModalEvent),
    let m := List.fold_left modalStep events (modalMounted shown) in
    pseudoShow m = show m /\ scrollLocked m = show m /\
    (show m = true -> modalDeleted m = false) /\
    modalEffect m = m.
Proof.
  intros shown events.
  assert (Hstart : let m0 := modalMounted shown in
                   (pseudoShow m0 = show m0 /\ scrollLocked m0 = show m0 /\
                    (show m0 = true -> modalDeleted m0 = false)) /\
                   modalEffect m0 = m0).
  { destruct shown; simpl; repeat split; reflexivity || discriminate. }
  revert Hstart. generalize (modalMounted shown).
  induction events as [|ev events IH]; intros m0 [Hinv Hfix]; simpl.
  - destruct Hinv as (H1 & H2 & H3). repeat split; assumption.
  - apply IH. split.
    + apply modalStep_invariant. exact Hinv.
    + unfold modalStep. apply modalEffect_settles.
Qed.

(** An instance of X26: a modal opened, closed before its transition
    has ended and opened again is in the document. *)
Lemma X26_modal_follows_show_witness :
  modalDeleted
    (List.fold_left modalStep [SetShow true; SetShow false; SetShow true]
       (modalMounted false)) = false.
Proof.
  pose proof (X26_modal_follows_show false
                [SetShow true; SetShow false; SetShow true]) as H.
  cbv zeta in H. destruct H as (_ & _ & H & _).
  apply H. reflexivity.
Defined.

(** ** The first version of the picker *)

Section FirstVersionFacts.

Variable fetchMedia : string -> option Blob.
Variable parse : list Byte.byte -> option ITags.

Lemma fetchAll_fails (data : list DocumentObject) (bad : DocumentObject) :
  In bad data ->
  FirstVersion.fetchAndParse fetchMedia parse bad = None ->
  FirstVersion.fetchAll fetchMedia parse data = None.
Proof.
  induction data as [|doc rest IH]; intros Hin Hbad; [destruct Hin|].
  simpl. destruct Hin as [->|Hin].
  - rewrite Hbad. reflexivity.
  - rewrite (IH Hin Hbad).
    destruct (FirstVersion.fetchAndParse fetchMedia parse doc); reflexivity.
Qed.

Lemma fetchAll_docs (data : list DocumentObject)
  (songs : list FirstVersion.Fetched) :
  FirstVersion.fetchAll fetchMedia parse data = Some songs ->
  FirstVersion.docsOf songs = data.
Proof.
  revert songs. induction data as [|doc rest IH]; intros songs; simpl.
  - intros H. injection H as <-. reflexivity.
  - unfold FirstVersion.fetchAndParse at 1.
    destruct (fetchMedia (docId doc)) as [fetched|]; [|discriminate].
    destruct (parse (blobBytes fetched)) as [metaData|]; [|discriminate].
    destruct (FirstVersion.fetchAll fetchMedia parse rest) as [rs|];
      [|discriminate].
    intros H. injection H as <-. unfold FirstVersion.docsOf. simpl.
    f_equal. apply (IH rs eq_refl).
Qed.

End FirstVersionFacts.

(** A callback leaves the records of the other ids alone. *)
Lemma store_other (seen t : Table) (song : FirstVersion.Fetched) key :
  key <> docId (fst (fst song)) ->
  Dexie.get key (FirstVersion.store seen t song) = Dexie.get key t.
Proof.
  destruct song as [[doc fetched] metaData]. simpl. intros N.
  destruct (Dexie.get (docId doc) seen) as [duplicate|].
  - destruct (lastEditedUtc duplicate <? docLastEditedUtc doc);
      [|reflexivity].
    apply get_update_other. exact N.
  - apply (get_add_other
             (FirstVersion.formatSongToStorage doc fetched metaData)).
    exact N.
Qed.

Lemma store_all_other (seen : Table) (songs : list FirstVersion.Fetched)
  (t : Table) key :
  ~ In key (List.map docId (FirstVersion.docsOf songs)) ->
  Dexie.get key (List.fold_left (FirstVersion.store seen) songs t)
  = Dexie.get key t.
Proof.
  revert t. induction songs as [|song rest IH]; intros t N; simpl;
    [reflexivity|].
  rewrite IH.
  - apply store_other. intros E. apply N. left. symmetry. exact E.
  - intros H. apply N. right. exact H.
Qed.

(** A callback whose lookup saw what the table still holds under its id
    leaves the document covered. *)
Lemma store_covers_own (seen t : Table) (doc : DocumentObject)
  (fetched : Blob) (metaData : ITags) :
  Dexie.get (docId doc) t = Dexie.get (docId doc) seen ->
  FirstVersion.covered doc (FirstVersion.store seen t (doc, fetched, metaData)).
Proof.
  intros Hsame. unfold FirstVersion.covered, FirstVersion.store.
  set (record := FirstVersion.formatSongToStorage doc fetched metaData).
  destruct (Dexie.get (docId doc) seen) as [duplicate|] eqn:G.
  - destruct (Z.ltb_spec (lastEditedUtc duplicate) (docLastEditedUtc doc)).
    + exists record. split; [|simpl; lia].
      rewrite (get_update_same _ _ _ duplicate);
        [|apply String.eqb_refl | exact Hsame].
      rewrite modify_changesOf. reflexivity.
    + exists duplicate. split; [exact Hsame | lia].
  - exists record. split; [|simpl; lia].
    apply (get_add_new record). exact Hsame.
Qed.

Lemma store_all_covers (seen : Table) (songs : list FirstVersion.Fetched)
  (t : Table) (doc : DocumentObject) :
  List.NoDup (List.map docId (FirstVersion.docsOf songs)) ->
  (forall d, In d (FirstVersion.docsOf songs) ->
     Dexie.get (docId d) t = Dexie.get (docId d) seen) ->
  In doc (FirstVersion.docsOf songs) ->
  FirstVersion.covered doc (List.fold_left (FirstVersion.store seen) songs t).
Proof.
  revert t. induction songs as [|song rest IH]; intros t Hnd Hsame Hin;
    [destruct Hin|].
  cbn [List.fold_left]. unfold FirstVersion.docsOf in Hnd, Hsame, Hin.
  cbn [List.map] in Hnd, Hsame, Hin. fold (FirstVersion.docsOf rest) in *.
  apply List.NoDup_cons_iff in Hnd. destruct Hnd as [Hfresh Hnd].
  destruct Hin as [E|Hin].
  - destruct song as [[d fetched] metaData]. simpl in E, Hfresh. subst d.
    destruct (store_covers_own seen t doc fetched metaData) as (r & Hr & Hts).
    + apply Hsame. left. reflexivity.
    + exists r. split; [|exact Hts].
      rewrite store_all_other by exact Hfresh. exact Hr.
  - apply IH; [exact Hnd | | exact Hin].
    intros d Hd. rewrite store_other.
    + apply Hsame. right. exact Hd.
    + intros E. apply Hfresh. rewrite <- E.
      apply List.in_map. exact Hd.
Qed.

(** X27: the first version of the picker stores all or nothing. If the
    download or the parse of any picked file fails, the error is
    reported and the table is the same, whatever the other files are.
    If the call ends without error and the picked documents have
    distinct ids, every one of them is in the table, in a version at
    least as recent as the picked one. *)
Theorem X27_first_version_all_or_nothing :
  forall (fetchMedia : string -> option Blob)
         (parse : list Byte.byte -> option ITags)
         (data : list DocumentObject) (t : Table),
    (forall bad, In bad data ->
       FirstVersion.fetchAndParse fetchMedia parse bad = None ->
       FirstVersion.handlePickerChange fetchMedia parse data t = (t, true)) /\
    (forall t',
       List.NoDup (List.map docId data) ->
       FirstVersion.handlePickerChange fetchMedia parse data t = (t', false) ->
       forall doc, In doc data -> FirstVersion.covered doc t').
Proof.
  intros fetchMedia parse data t.
  unfold FirstVersion.handlePickerChange. split.
  - intros bad Hin Hbad.
    rewrite (fetchAll_fails fetchMedia parse data bad Hin Hbad).
    reflexivity.
  - intros t' Hnd.
    destruct (FirstVersion.fetchAll fetchMedia parse data) as [songs|] eqn:F;
      [|discriminate].
    intros H doc Hin. injection H as <-.
    pose proof (fetchAll_docs fetchMedia parse data songs F) as Hdocs.
    apply store_all_covers.
    + rewrite Hdocs. exact Hnd.
    + reflexivity.
    + rewrite Hdocs. exact Hin.
Qed.

(** An instance of X27: of three picked files, the download of one
    fails and nothing is stored; without that file, the newer version
    of the stored song and the new song are both in the table. *)
Lemma X27_first_version_all_or_nothing_witness :
  FirstVersion.handlePickerChange Sample2.fetchButLost Sample.parse
    [Sample.doc150; Sample2.docLost; Sample2.docNew] [Sample.stored100]
  = ([Sample.stored100], true) /\
  FirstVersion.covered Sample2.docNew
    (fst (FirstVersion.handlePickerChange Sample2.fetchButLost Sample.parse
            [Sample.doc150; Sample2.docNew] [Sample.stored100])).
Proof.
  split.
  - apply (proj1 (X27_first_version_all_or_nothing Sample2.fetchButLost
                    Sample.parse
                    [Sample.doc150; Sample2.docLost; Sample2.docNew]
                    [Sample.stored100]) Sample2.docLost).
    + right. left. reflexivity.
    + reflexivity.
  - apply (proj2 (X27_first_version_all_or_nothing Sample2.fetchButLost
                    Sample.parse [Sample.doc150; Sample2.docNew]
                    [Sample.stored100])).
    + repeat constructor; simpl; intuition discriminate.
    + reflexivity.
    + right. left. reflexivity.
Defined.
